(** * go.geo [point.go]: quadkey and geohash codecs

    A shallow embedding of the codec functions of [point.go] and the
    properties of its specification.

    Conventions
    - Go's [int64]/[uint64]/[int]/[uint] values are integers of [Z]; every
      operation that can leave the 64-bit range is followed by the
      wrap-around Go performs ([u64] for unsigned, [s64] for signed values).
      [int] and [uint] are taken to be 64 bits wide.
    - [float64] is IEEE-754 binary64, as specified by [SpecFloat].
    - A Go run-time panic is the result [None]. *)

From Stdlib Require Import ZArith List Bool Lia String Ascii SpecFloat.
Import ListNotations.
Local Open Scope Z_scope.

(** ** Machine integers *)

Definition u64 (z : Z) : Z := z mod 2 ^ 64.

Definition s64 (z : Z) : Z := (z + 2 ^ 63) mod 2 ^ 64 - 2 ^ 63.

(** [a << n] on a [uint64]; Go shifts every bit out once [n >= 64]. *)
Definition shl_u64 (a n : Z) : Z :=
  if 64 <=? n then 0 else u64 (Z.shiftl a n).

(** [a << n] on an [int64]. *)
Definition shl_s64 (a n : Z) : Z :=
  if 64 <=? n then 0 else s64 (Z.shiftl a n).

(** [a >> n] on an [int64]: arithmetic shift. *)
Definition shr_s64 (a n : Z) : Z :=
  if 64 <=? n then (if a <? 0 then -1 else 0) else Z.shiftr a n.

(** ** Loops

    [for i = start; i < start + n; i++ { s = body i s }] *)

Fixpoint for_up {S : Type} (body : Z -> S -> S) (i : Z) (n : nat) (s : S) : S :=
  match n with
  | O => s
  | Datatypes.S n' => for_up body (i + 1) n' (body i s)
  end.

(** ** Floating point *)

Definition float64 := spec_float.

Definition f64_of_Z (z : Z) : float64 := binary_normalize 53 1024 z 0 false.
Definition f64_add : float64 -> float64 -> float64 := SFadd 53 1024.
Definition f64_div : float64 -> float64 -> float64 := SFdiv 53 1024.
(** Go's [a > b] on [float64]. *)
Definition f64_gt (a b : float64) : bool := SFltb b a.
Definition f64_le (a b : float64) : bool := SFleb a b.
Definition f64_eq (a b : float64) : bool := SFeqb a b.

(** ** Points *)

(** [type Point [2]float64] *)
Definition Point : Type := float64 * float64.

Definition NewPoint (x y : float64) : Point := (x, y).
Definition Lng (p : Point) : float64 := fst p.
Definition Lat (p : Point) : float64 := snd p.

(** ** Text *)

(** [len(s)] *)
Definition len (s : string) : Z := Z.of_nat (String.length s).

(** [s[:n]]; panics unless [0 <= n <= len(s)]. *)
Definition slice_to (s : string) (n : Z) : option string :=
  if (0 <=? n) && (n <=? len s) then Some (substring 0 (Z.to_nat n) s) else None.

(** [strconv.FormatInt] and [strconv.ParseInt] belong to Go's standard
    library; they are written here as that library documents and implements
    them, for base 4 and 64 bits. *)

(** Base-4 digits of a positive number, most significant first. *)
Fixpoint pos_base4 (p : positive) : string :=
  match p with
  | xH => "1"
  | xO xH => "2"
  | xI xH => "3"
  | xO (xO q) => pos_base4 q ++ "0"
  | xI (xO q) => pos_base4 q ++ "1"
  | xO (xI q) => pos_base4 q ++ "2"
  | xI (xI q) => pos_base4 q ++ "3"
  end.

(** [strconv.FormatInt(v, 4)] *)
Definition FormatInt4 (v : Z) : string :=
  match v with
  | Z0 => "0"
  | Zpos p => pos_base4 p
  | Zneg p => String "-" (pos_base4 p)
  end.

(** Outcome of [strconv.ParseInt]: the error it reports, if any. *)
Inductive NumError : Type := ErrSyntax | ErrRange.

(** The value [strconv.ParseUint] gives a byte: decimal digits, then letters
    of either case from ten on (whether it is below the base is checked by the
    caller). *)
Definition digit_val (c : ascii) : option Z :=
  let n := Z.of_nat (nat_of_ascii c) in
  let lower := Z.lor n 32 in
  if (48 <=? n) && (n <=? 57) then Some (n - 48)
  else if (97 <=? lower) && (lower <=? 122) then Some (lower - 97 + 10)
  else None.

(** The digit loop of [strconv.ParseUint(s, 4, 64)]. *)
Fixpoint ParseUint4_loop (s : string) (n : Z) : Z * option NumError :=
  match s with
  | EmptyString => (n, None)
  | String c s' =>
      match digit_val c with
      | None => (0, Some ErrSyntax)
      | Some d =>
          if 4 <=? d then (0, Some ErrSyntax)
          else if 2 ^ 62 <=? n then (2 ^ 64 - 1, Some ErrRange)
          else
            let n4 := u64 (n * 4) in
            let n1 := u64 (n4 + d) in
            if n1 <? n4 then (2 ^ 64 - 1, Some ErrRange)
            else ParseUint4_loop s' n1
      end
  end.

Definition ParseUint4 (s : string) : Z * option NumError :=
  match s with
  | EmptyString => (0, Some ErrSyntax)
  | _ => ParseUint4_loop s 0
  end.

(** [strconv.ParseInt(s, 4, 64)] *)
Definition ParseInt4 (s : string) : Z * option NumError :=
  match s with
  | EmptyString => (0, Some ErrSyntax)
  | String c s' =>
      let '(neg, digits) :=
        if Ascii.eqb c "+" then (false, s')
        else if Ascii.eqb c "-" then (true, s')
        else (false, s) in
      match ParseUint4 digits with
      | (_, Some ErrSyntax) => (0, Some ErrSyntax)
      | (un, _) =>
          if negb neg && (2 ^ 63 <=? un) then (2 ^ 63 - 1, Some ErrRange)
          else if neg && (2 ^ 63 <? un) then (- 2 ^ 63, Some ErrRange)
          else
            let n := s64 un in
            (if neg then s64 (- n) else n, None)
      end
  end.

(** ** Quadkey *)

(** One iteration of the loop of [Quadkey]. *)
Definition Quadkey_step (x y : Z) (i : Z) (result : Z) : Z :=
  let result := Z.lor result (shl_u64 (Z.land x (shl_u64 1 i)) i) in
  Z.lor result (shl_u64 (Z.land y (shl_u64 1 i)) (i + 1)).

(** [for i = 0; i < uint(level); i++ { ... }] starting from [result = 0]. *)
Definition Quadkey_loop (x y : Z) (level : Z) : Z :=
  for_up (Quadkey_step x y) 0 (Z.to_nat (u64 level)) 0.

(** One iteration of the loop of [NewPointFromQuadkey] on [(x, y)]. *)
Definition NewPointFromQuadkey_step (key : Z) (i : Z) (xy : Z * Z) : Z * Z :=
  let '(x, y) := xy in
  let x := Z.lor x (shr_s64 (Z.land key (shl_s64 1 (u64 (2 * i)))) i) in
  let y := Z.lor y (shr_s64 (Z.land key (shl_s64 1 (u64 (u64 (2 * i) + 1)))) (i + 1)) in
  (x, y).

Definition NewPointFromQuadkey_loop (key : Z) (level : Z) : Z * Z :=
  for_up (NewPointFromQuadkey_step key) 0 (Z.to_nat (u64 level)) (0, 0).

(** The padding constant of [QuadkeyString]: thirty zeros. *)
Definition zeros : string := "000000000000000000000000000000".

Section Mercator.

(** The Mercator helpers live in another file of the package; they are
    parameters here.  Both results of the projection are [uint64]. *)
Variable scalarMercatorProject : float64 -> float64 -> Z -> Z * Z.
Variable scalarMercatorInverse : Z -> Z -> Z -> float64 * float64.

(** [Quadkey(level int) int64]: project, interleave, convert to [int64]. *)
Definition Quadkey (p : Point) (level : Z) : Z :=
  let '(x, y) := scalarMercatorProject (Lng p) (Lat p) (u64 level) in
  s64 (Quadkey_loop (u64 x) (u64 y) level).

(** [zeros[:((level+1)-len(s))/2] + s]; Go's [/] on [int] truncates toward
    zero, and the slice panics unless its bound lies in [[0, 30]]. *)
Definition QuadkeyString (p : Point) (level : Z) : option string :=
  let s := FormatInt4 (Quadkey p level) in
  match slice_to zeros (Z.quot (s64 (s64 (level + 1) - len s)) 2) with
  | Some pad => Some (pad ++ s)%string
  | None => None
  end.

(** [NewPointFromQuadkey(key int64, level int) Point] *)
Definition NewPointFromQuadkey (key : Z) (level : Z) : Point :=
  let '(x, y) := NewPointFromQuadkey_loop key level in
  scalarMercatorInverse (u64 x) (u64 y) (u64 level).

(** [i, _ := strconv.ParseInt(key, 4, 64)]: the error is dropped. *)
Definition NewPointFromQuadkeyString (key : string) : Point :=
  let i := fst (ParseInt4 key) in
  NewPointFromQuadkey i (len key).

End Mercator.

(** ** Geohash *)

Definition base32 : string := "0123456789bcdefghjkmnpqrstuvwxyz".

(** Modelled from the spec: the package variable [GeoHashPrecision], declared
    in another file of the package; the default precision is 12. *)
Definition GeoHashPrecision : Z := 12.

(** The variables of the loop of [GeoHashInt64]. *)
Record geoHashState : Type := mkGeoHashState {
  hash : Z;
  latMin : float64;
  latMax : float64;
  lngMin : float64;
  lngMax : float64
}.

Definition geoHashInit : geoHashState :=
  mkGeoHashState 0 (f64_of_Z (-90)) (f64_of_Z 90) (f64_of_Z (-180)) (f64_of_Z 180).

Definition f64_mid (lo hi : float64) : float64 :=
  f64_div (f64_add lo hi) (f64_of_Z 2).

(** One iteration of the loop of [GeoHashInt64]. *)
Definition GeoHashInt64_step (p : Point) (i : Z) (st : geoHashState) : geoHashState :=
  let h := shl_s64 (hash st) 1 in
  if Z.rem i 2 =? 0 then
    let mid := f64_mid (lngMin st) (lngMax st) in
    if f64_gt (fst p) mid
    then mkGeoHashState (Z.lor h 1) (latMin st) (latMax st) mid (lngMax st)
    else mkGeoHashState h (latMin st) (latMax st) (lngMin st) mid
  else
    let mid := f64_mid (latMin st) (latMax st) in
    if f64_gt (snd p) mid
    then mkGeoHashState (Z.lor h 1) mid (latMax st) (lngMin st) (lngMax st)
    else mkGeoHashState h (latMin st) mid (lngMin st) (lngMax st).

(** The state after the loop [for i := 0; i < bits; i++]. *)
Definition GeoHashInt64_loop (p : Point) (bits : Z) : geoHashState :=
  for_up (GeoHashInt64_step p) 0 (Z.to_nat bits) geoHashInit.

(** [GeoHashInt64(bits int) (hash int64)] *)
Definition GeoHashInt64 (p : Point) (bits : Z) : Z :=
  hash (GeoHashInt64_loop p bits).

(** [a[k] = c] on an array; panics when [k] is out of range. *)
Definition array_set (a : list ascii) (k : Z) (c : ascii) : option (list ascii) :=
  if (0 <=? k) && (k <? Z.of_nat (List.length a))
  then Some (firstn (Z.to_nat k) a ++ c :: skipn (Datatypes.S (Z.to_nat k)) a)
  else None.

(** [s[k]] on a string; panics when [k] is out of range. *)
Definition string_index (s : string) (k : Z) : option ascii :=
  if 0 <=? k then String.get (Z.to_nat k) s else None.

(** One iteration of the loop of [GeoHash]; [None] once it has panicked. *)
Definition GeoHash_step (precision : Z) (i : Z) (st : option (list ascii * Z))
  : option (list ascii * Z) :=
  match st with
  | None => None
  | Some (result, h) =>
      match string_index base32 (Z.land h 31) with
      | None => None
      | Some c =>
          match array_set result (precision - i) c with
          | None => None
          | Some result' => Some (result', shr_s64 h 5)
          end
      end
  end.

(** [GeoHash(chars ...int) string]; the variadic arguments are the list
    [chars], the buffer is [var result [15]byte], and the loop is
    [for i := 1; i <= precision; i++]. *)
Definition GeoHash (p : Point) (chars : list Z) : option string :=
  let precision := match chars with c :: _ => c | [] => GeoHashPrecision end in
  let result := repeat Ascii.zero 15 in
  let h := GeoHashInt64 p (s64 (5 * precision)) in
  match for_up (GeoHash_step precision) 1 (Z.to_nat precision) (Some (result, h)) with
  | None => None
  | Some (result, _) =>
      if (0 <=? precision) && (precision <=? 15)
      then Some (string_of_list_ascii (firstn (Z.to_nat precision) result))
      else None
  end.

(** ** Distances, equality and vectors

    Each arithmetic operation is rounded on its own, as the compiler does on
    targets where it fuses no multiplication with an addition. *)

Definition f64_sub : float64 -> float64 -> float64 := SFsub 53 1024.
Definition f64_mul : float64 -> float64 -> float64 := SFmul 53 1024.
(** [math.Sqrt] *)
Definition f64_sqrt : float64 -> float64 := SFsqrt 53 1024.

(** [SquaredDistanceFrom(point Point) float64] *)
Definition SquaredDistanceFrom (p point : Point) : float64 :=
  let d0 := f64_sub (fst point) (fst p) in
  let d1 := f64_sub (snd point) (snd p) in
  f64_add (f64_mul d0 d0) (f64_mul d1 d1).

(** [DistanceFrom(point Point) float64] *)
Definition DistanceFrom (p point : Point) : float64 :=
  let d0 := f64_sub (fst point) (fst p) in
  let d1 := f64_sub (snd point) (snd p) in
  f64_sqrt (f64_add (f64_mul d0 d0) (f64_mul d1 d1)).

(** [Equal(point Point) bool] *)
Definition Equal (p point : Point) : bool :=
  f64_eq (fst p) (fst point) && f64_eq (snd p) (snd point).

(** The type [Vector] is declared in another file of the package; the code
    here reads its components 0 and 1 and builds it from two [float64]. *)
Definition Vector : Type := float64 * float64.

(** [Add(vector Vector) Point] *)
Definition Add (p : Point) (vector : Vector) : Point :=
  (f64_add (fst p) (fst vector), f64_add (snd p) (snd vector)).

(** [Subtract(point Point) Vector] *)
Definition Subtract (p point : Point) : Vector :=
  (f64_sub (fst p) (fst point), f64_sub (snd p) (snd point)).

(* ------------------------------------------------------------------ *)
(** * The codecs as the specification words them

    These definitions follow the text of the specification, not the code;
    the theorems below compare them with the functions above. *)

(** The character of the geohash alphabet for a 5-bit group. *)
Definition base32_char (v : Z) : ascii :=
  nth (Z.to_nat v) (list_ascii_of_string base32) Ascii.zero.

(** The string of [k] characters read off an accumulator: take the 5
    least-significant bits, map them through the alphabet, put the character
    at the last unfilled position, shift the accumulator right by 5, and go
    on with the positions before it. *)
Fixpoint base32_string (k : nat) (acc : Z) : list ascii :=
  match k with
  | O => []
  | Datatypes.S k' => base32_string k' (Z.shiftr acc 5) ++ [base32_char (Z.land acc 31)]
  end.

(** A range of a coordinate: its lower and its upper bound. *)
Definition interval : Type := (float64 * float64)%type.

Definition lng_range : interval := (f64_of_Z (-180), f64_of_Z 180).
Definition lat_range : interval := (f64_of_Z (-90), f64_of_Z 90).

(** One bisection: bit 1 and the lower bound raised to the midpoint when the
    coordinate exceeds the midpoint, else bit 0 and the upper bound lowered
    to the midpoint. *)
Definition bisect (coord : float64) (iv : interval) : bool * interval :=
  let mid := f64_mid (fst iv) (snd iv) in
  if f64_gt coord mid then (true, (mid, snd iv)) else (false, (fst iv, mid)).

(** The bits emitted by the first [n] iterations, in the order of emission,
    with the longitude and latitude ranges they leave: iteration [k]
    (0-based) bisects the longitude when [k] is even, the latitude when it
    is odd. *)
Fixpoint bisection (p : Point) (n : nat) : list bool * interval * interval :=
  match n with
  | O => ([], lng_range, lat_range)
  | Datatypes.S k =>
      let '(bits, lng, lat) := bisection p k in
      if Nat.even k
      then let '(b, lng') := bisect (Lng p) lng in (bits ++ [b], lng', lat)
      else let '(b, lat') := bisect (Lat p) lat in (bits ++ [b], lng, lat')
  end.

Definition bisection_bits (p : Point) (n : nat) : list bool :=
  fst (fst (bisection p n)).

(** Emitting a bit: the accumulator is shifted left by one, then the bit is
    OR-ed in. *)
Definition emit (acc : Z) (b : bool) : Z := Z.lor (shl_s64 acc 1) (Z.b2z b).

(** The integer a list of bits denotes, most significant bit first. *)
Definition bits_value (bits : list bool) : Z :=
  fold_left (fun acc b => 2 * acc + Z.b2z b) bits 0.

(** A well-formed base-4 numeral: an optional sign, then one or more of
    the digits 0, 1, 2, 3. *)
Definition is_base4_digit (c : ascii) : bool :=
  Ascii.eqb c "0" || Ascii.eqb c "1" || Ascii.eqb c "2" || Ascii.eqb c "3".

Fixpoint all_base4_digits (s : string) : bool :=
  match s with
  | EmptyString => true
  | String c s' => is_base4_digit c && all_base4_digits s'
  end.

Definition base4_digits (s : string) : bool :=
  match s with
  | EmptyString => false
  | _ => all_base4_digits s
  end.

Definition base4_numeral (s : string) : bool :=
  match s with
  | EmptyString => false
  | String c s' =>
      if Ascii.eqb c "+" || Ascii.eqb c "-" then base4_digits s' else base4_digits s
  end.

(** The number a string of digits denotes in base 4, continuing from [n]. *)
Fixpoint digits_value (s : string) (n : Z) : Z :=
  match s with
  | EmptyString => n
  | String c s' =>
      digits_value s' (4 * n + match digit_val c with Some d => d | None => 0 end)
  end.

(** A float that is a number and not an infinity. *)
Definition f64_is_finite (x : float64) : bool :=
  match x with
  | S754_zero _ | S754_finite _ _ _ => true
  | _ => false
  end.

Definition f64_is_nan (x : float64) : bool :=
  match x with S754_nan => true | _ => false end.

(** A float without a sign: not a number, or at least [+0]. *)
Definition f64_unsigned (x : float64) : bool :=
  match x with
  | S754_nan | S754_zero false | S754_infinity false | S754_finite false _ _ => true
  | _ => false
  end.

(** Two points are on the same side of the prime meridian when the
    longitudes of both exceed 0, or of neither. *)
Definition same_hemisphere (p1 p2 : Point) : Prop :=
  f64_gt (Lng p1) (f64_of_Z 0) = f64_gt (Lng p2) (f64_of_Z 0).

(* ------------------------------------------------------------------ *)
(** * Inputs of the examples *)

Definition f64_ratio (n d : Z) : float64 := f64_div (f64_of_Z n) (f64_of_Z d).

Definition origin : Point := NewPoint (f64_of_Z 0) (f64_of_Z 0).

(** A city of the package's tests, as [(lng, lat)]. *)
Definition aalborg : Point := NewPoint (f64_ratio 985 100) (f64_ratio 57097 1000).

(** Two points of latitude 40 north, at longitudes 10 and 100 east. *)
Definition east10 : Point := NewPoint (f64_of_Z 10) (f64_of_Z 40).
Definition east100 : Point := NewPoint (f64_of_Z 100) (f64_of_Z 40).

(** Another city of the package's tests, in the south-east quadrant. *)
Definition adelaide : Point :=
  NewPoint (f64_ratio 1385367 10000) (f64_ratio (-347666) 10000).

(** A point whose coordinates are not numbers. *)
Definition nan_point : Point := NewPoint S754_nan S754_nan.

(** An inverse projection that returns the cell it is given. *)
Definition inverse_cell : Z -> Z -> Z -> float64 * float64 :=
  fun x y _ => (f64_of_Z x, f64_of_Z y).

(** The points of the package's distance test. *)
Definition p_0_0 : Point := NewPoint (f64_of_Z 0) (f64_of_Z 0).
Definition p_3_4 : Point := NewPoint (f64_of_Z 3) (f64_of_Z 4).

(** A projection that sends every point to the grid cell [(x, y)]. *)
Definition project_const (x y : Z) : float64 -> float64 -> Z -> Z * Z :=
  fun _ _ _ => (x, y).

(* ------------------------------------------------------------------ *)
(** * Properties *)

(** ** Loops *)

Lemma for_up_snoc {S : Type} (body : Z -> S -> S) (n : nat) :
  forall i s,
    for_up body i (Datatypes.S n) s = body (i + Z.of_nat n) (for_up body i n s).
Proof.
  induction n as [|n IH]; intros i s.
  - simpl. now rewrite Z.add_0_r.
  - change (for_up body i (Datatypes.S (Datatypes.S n)) s)
      with (for_up body (i + 1) (Datatypes.S n) (body i s)).
    rewrite IH. simpl for_up.
    f_equal. lia.
Qed.

Lemma for_up_add {S : Type} (body : Z -> S -> S) (n m : nat) :
  forall i s,
    for_up body i (n + m) s = for_up body (i + Z.of_nat n) m (for_up body i n s).
Proof.
  induction n as [|n IH]; intros i s.
  - simpl. now rewrite Z.add_0_r.
  - simpl plus. simpl for_up. rewrite IH. f_equal. lia.
Qed.

(** ** Machine integers *)

Lemma u64_range z : 0 <= u64 z < 2 ^ 64.
Proof. unfold u64. apply Z.mod_pos_bound. lia. Qed.

Lemma u64_small z : 0 <= z < 2 ^ 64 -> u64 z = z.
Proof. intros H. unfold u64. now apply Z.mod_small. Qed.

Lemma s64_range z : - 2 ^ 63 <= s64 z < 2 ^ 63.
Proof.
  unfold s64. pose proof (Z.mod_pos_bound (z + 2 ^ 63) (2 ^ 64)). lia.
Qed.

Lemma s64_small z : - 2 ^ 63 <= z < 2 ^ 63 -> s64 z = z.
Proof.
  intros H. unfold s64. rewrite Z.mod_small; lia.
Qed.

Lemma testbit_u64 a k : Z.testbit (u64 a) k = (k <? 64) && Z.testbit a k.
Proof. unfold u64. apply Z.testbit_mod_pow2. lia. Qed.

Lemma shl_u64_1 i : 0 <= i < 64 -> shl_u64 1 i = 2 ^ i.
Proof.
  intros H. unfold shl_u64.
  destruct (Z.leb_spec 64 i); [lia|].
  rewrite Z.shiftl_1_l. apply u64_small. split; [lia|].
  apply Z.pow_lt_mono_r; lia.
Qed.

Lemma shl_u64_1_high i : 64 <= i -> shl_u64 1 i = 0.
Proof.
  intros H. unfold shl_u64. destruct (Z.leb_spec 64 i); [reflexivity|lia].
Qed.

Lemma shl_u64_0 n : shl_u64 0 n = 0.
Proof.
  unfold shl_u64. destruct (64 <=? n); [reflexivity|].
  now rewrite Z.shiftl_0_l.
Qed.

Lemma testbit_shl_u64 a n k :
  0 <= n -> 0 <= k ->
  Z.testbit (shl_u64 a n) k = (k <? 64) && (n <=? k) && Z.testbit a (k - n).
Proof.
  intros Hn Hk. unfold shl_u64.
  destruct (Z.leb_spec 64 n) as [H|H].
  - rewrite Z.testbit_0_l.
    destruct (Z.ltb_spec k 64); [|reflexivity].
    destruct (Z.leb_spec n k); [lia|reflexivity].
  - rewrite testbit_u64, Z.shiftl_spec by assumption.
    destruct (Z.leb_spec n k) as [H'|H'].
    + now rewrite andb_true_r.
    + rewrite (Z.testbit_neg_r a (k - n)) by lia.
      now rewrite andb_false_r.
Qed.

(** The bit that [x & (1 << i)] keeps. *)
Lemma testbit_land_bit a i j :
  0 <= i < 64 -> 0 <= j ->
  Z.testbit (Z.land a (2 ^ i)) j = Z.testbit a i && (j =? i).
Proof.
  intros Hi Hj. rewrite Z.land_spec, Z.pow2_bits_eqb by lia.
  destruct (Z.eqb_spec i j) as [->|Hne].
  - now rewrite Z.eqb_refl.
  - destruct (Z.eqb_spec j i); [lia|]. now rewrite !andb_false_r.
Qed.

(** A number whose bits from [m] on are all clear lies in [[0, 2^m)]. *)
Lemma bits_clear_range a m :
  0 <= m ->
  (forall k, m <= k -> Z.testbit a k = false) ->
  0 <= a < 2 ^ m.
Proof.
  intros Hm H.
  assert (E : a = a mod 2 ^ m).
  { apply Z.bits_inj'. intros k Hk.
    rewrite Z.testbit_mod_pow2 by assumption.
    destruct (Z.ltb_spec k m); [reflexivity|]. now apply H. }
  rewrite E. apply Z.mod_pos_bound. lia.
Qed.

(** ** The interleaving loop of [Quadkey] *)

Ltac cmp_cases :=
  repeat match goal with
    | |- context [Z.ltb ?a ?b] => destruct (Z.ltb_spec a b)
    | |- context [Z.leb ?a ?b] => destruct (Z.leb_spec a b)
    | |- context [Z.eqb ?a ?b] => destruct (Z.eqb_spec a b)
    end.

(** Bit [i] of [x] moved to position [p] ([p = 2i] or [p = 2i + 1]). *)
Lemma testbit_place_bit a i p k :
  0 <= i -> 0 <= k -> i <= p ->
  Z.testbit (shl_u64 (Z.land a (shl_u64 1 i)) (p - i)) k
  = (k <? 64) && (k =? p) && (i <? 64) && Z.testbit a i.
Proof.
  intros Hi Hk Hp.
  destruct (Z.ltb_spec i 64) as [Hlt|Hge].
  - rewrite shl_u64_1 by lia.
    rewrite testbit_shl_u64 by lia.
    destruct (Z.leb_spec (p - i) k) as [Hle|Hgt].
    + rewrite testbit_land_bit by lia.
      replace (k - (p - i) =? i) with (k =? p) by (cmp_cases; lia).
      destruct (k <? 64), (k =? p), (Z.testbit a i); reflexivity.
    + replace (k =? p) with false by (cmp_cases; lia).
      now rewrite !andb_false_r.
  - rewrite shl_u64_1_high, Z.land_0_r, shl_u64_0, Z.testbit_0_l by lia.
    now rewrite andb_false_r.
Qed.

Lemma testbit_Quadkey_step x y i r k :
  0 <= i -> 0 <= k ->
  Z.testbit (Quadkey_step x y i r) k
  = Z.testbit r k
    || ((k <? 64) && (k =? 2 * i) && (i <? 64) && Z.testbit x i)
    || ((k <? 64) && (k =? 2 * i + 1) && (i <? 64) && Z.testbit y i).
Proof.
  intros Hi Hk. unfold Quadkey_step. rewrite !Z.lor_spec.
  replace i with (2 * i - i) at 2 by lia.
  replace (i + 1) with (2 * i + 1 - i) by lia.
  rewrite !testbit_place_bit by lia. reflexivity.
Qed.

(** The bits of the result after [n] iterations. *)
Lemma testbit_Quadkey_iter x y n :
  forall k, 0 <= k ->
    Z.testbit (for_up (Quadkey_step x y) 0 n 0) k
    = (k <? 64) && (k / 2 <? Z.of_nat n)
      && Z.testbit (if Z.even k then x else y) (k / 2).
Proof.
  induction n as [|n IH]; intros k Hk.
  - simpl for_up. rewrite Z.testbit_0_l.
    replace (k / 2 <? Z.of_nat 0) with false.
    + now rewrite andb_false_r.
    + symmetry. apply Z.ltb_ge. apply Z.div_pos; lia.
  - rewrite for_up_snoc, Z.add_0_l.
    rewrite testbit_Quadkey_step by lia. rewrite IH by assumption.
    set (i := Z.of_nat n).
    replace (Z.of_nat (Datatypes.S n)) with (i + 1) by lia.
    assert (Hi : 0 <= i) by lia. clearbody i. clear IH.
    pose proof (Z.div_mod k 2 ltac:(lia)) as Hdm.
    pose proof (Z.mod_pos_bound k 2 ltac:(lia)) as Hm.
    rewrite Zeven_mod.
    destruct (Z.eqb_spec (k mod 2) 0) as [He|Ho].
    + replace (k =? 2 * i + 1) with false by (cmp_cases; lia).
      rewrite !andb_false_r, andb_false_l, orb_false_r.
      destruct (Z.eqb_spec k (2 * i)) as [->|Hne].
      * replace (2 * i / 2) with i by lia.
        replace (i <? i) with false by (cmp_cases; lia).
        replace (i <? i + 1) with true by (cmp_cases; lia).
        destruct (Z.ltb_spec (2 * i) 64), (Z.ltb_spec i 64); simpl; try reflexivity; lia.
      * replace (k / 2 <? i + 1) with (k / 2 <? i) by (cmp_cases; lia).
        now rewrite !andb_false_r, andb_false_l, orb_false_r.
    + replace (k =? 2 * i) with false by (cmp_cases; lia).
      rewrite !andb_false_r, andb_false_l, orb_false_r.
      destruct (Z.eqb_spec k (2 * i + 1)) as [->|Hne].
      * replace ((2 * i + 1) / 2) with i by lia.
        replace (i <? i) with false by (cmp_cases; lia).
        replace (i <? i + 1) with true by (cmp_cases; lia).
        destruct (Z.ltb_spec (2 * i + 1) 64), (Z.ltb_spec i 64); simpl; try reflexivity; lia.
      * replace (k / 2 <? i + 1) with (k / 2 <? i) by (cmp_cases; lia).
        now rewrite !andb_false_r, andb_false_l, orb_false_r.
Qed.

(** ** The extraction loop of [NewPointFromQuadkey] *)

Lemma shl_s64_1 m : 0 <= m < 63 -> shl_s64 1 m = 2 ^ m.
Proof.
  intros H. unfold shl_s64.
  destruct (Z.leb_spec 64 m); [lia|].
  rewrite Z.shiftl_1_l. apply s64_small.
  assert (2 ^ m < 2 ^ 63) by (apply Z.pow_lt_mono_r; lia).
  assert (0 < 2 ^ m) by (apply Z.pow_pos_nonneg; lia).
  lia.
Qed.

(** Bit [m] of [key] moved down by [sh] places. *)
Lemma testbit_extract_bit key m sh j :
  0 <= sh <= m -> m < 63 -> 0 <= j ->
  Z.testbit (shr_s64 (Z.land key (shl_s64 1 m)) sh) j
  = Z.testbit key m && (j =? m - sh).
Proof.
  intros Hsh Hm Hj. rewrite shl_s64_1 by lia.
  unfold shr_s64. destruct (Z.leb_spec 64 sh); [lia|].
  rewrite Z.shiftr_spec by assumption.
  rewrite Z.land_spec, Z.pow2_bits_eqb by lia.
  replace (m =? j + sh) with (j =? m - sh) by (cmp_cases; lia).
  destruct (Z.eqb_spec j (m - sh)) as [E|E].
  - replace (j + sh) with m by lia. reflexivity.
  - now rewrite !andb_false_r.
Qed.

Lemma testbit_NewPointFromQuadkey_step key i x y j :
  0 <= i <= 30 -> 0 <= j ->
  Z.testbit (fst (NewPointFromQuadkey_step key i (x, y))) j
  = Z.testbit x j || (Z.testbit key (2 * i) && (j =? i))
  /\ Z.testbit (snd (NewPointFromQuadkey_step key i (x, y))) j
     = Z.testbit y j || (Z.testbit key (2 * i + 1) && (j =? i)).
Proof.
  intros Hi Hj. unfold NewPointFromQuadkey_step. cbn [fst snd].
  rewrite !Z.lor_spec.
  rewrite (u64_small (2 * i)) by lia.
  rewrite (u64_small (2 * i + 1)) by lia.
  rewrite !testbit_extract_bit by lia.
  replace (2 * i - i) with i by lia.
  replace (2 * i + 1 - (i + 1)) with i by lia.
  split; reflexivity.
Qed.

(** The bits of [x] and [y] after [n <= 31] iterations. *)
Lemma testbit_NewPointFromQuadkey_iter key n :
  (n <= 31)%nat ->
  forall j, 0 <= j ->
    Z.testbit (fst (for_up (NewPointFromQuadkey_step key) 0 n (0, 0))) j
    = (j <? Z.of_nat n) && Z.testbit key (2 * j)
    /\ Z.testbit (snd (for_up (NewPointFromQuadkey_step key) 0 n (0, 0))) j
       = (j <? Z.of_nat n) && Z.testbit key (2 * j + 1).
Proof.
  induction n as [|n IH]; intros Hn j Hj.
  - simpl for_up. cbn [fst snd]. rewrite Z.testbit_0_l.
    replace (j <? Z.of_nat 0) with false by (cmp_cases; lia).
    split; reflexivity.
  - rewrite for_up_snoc, Z.add_0_l.
    destruct (for_up (NewPointFromQuadkey_step key) 0 n (0, 0)) as [x y] eqn:E.
    destruct (IH ltac:(lia) j Hj) as [IHx IHy]. cbn [fst snd] in IHx, IHy.
    destruct (testbit_NewPointFromQuadkey_step key (Z.of_nat n) x y j
                ltac:(lia) Hj) as [Sx Sy].
    rewrite Sx, Sy, IHx, IHy.
    replace (Z.of_nat (Datatypes.S n)) with (Z.of_nat n + 1) by lia.
    destruct (Z.eqb_spec j (Z.of_nat n)) as [->|Hne].
    + replace (Z.of_nat n <? Z.of_nat n) with false by (cmp_cases; lia).
      replace (Z.of_nat n <? Z.of_nat n + 1) with true by (cmp_cases; lia).
      now rewrite !andb_true_r.
    + replace (j <? Z.of_nat n + 1) with (j <? Z.of_nat n) by (cmp_cases; lia).
      now rewrite !andb_false_r, !orb_false_r.
Qed.

(** ** Quadkey: range, masking and the two loops as inverses *)

Lemma div2_double i : 2 * i / 2 = i.
Proof. Z.div_mod_to_equations. lia. Qed.

Lemma div2_double_succ i : (2 * i + 1) / 2 = i.
Proof. Z.div_mod_to_equations. lia. Qed.

Lemma even_double i : Z.even (2 * i) = true.
Proof. now rewrite Z.even_mul. Qed.

Lemma even_double_succ i : Z.even (2 * i + 1) = false.
Proof. rewrite Z.add_comm, Z.even_add_mul_2. reflexivity. Qed.

Lemma testbit_high a m k : 0 <= a < 2 ^ m -> m <= k -> Z.testbit a k = false.
Proof.
  intros Ha Hk.
  destruct (Z.ltb_spec m 0) as [Hm|Hm].
  - rewrite Z.pow_neg_r in Ha by assumption. lia.
  - rewrite <- (Z.mod_small a (2 ^ m)) by assumption.
    apply Z.mod_pow2_bits_high. lia.
Qed.

Lemma pow4_pow2 L : 0 <= L -> 4 ^ L = 2 ^ (2 * L).
Proof. intros H. now rewrite Z.pow_mul_r by lia. Qed.

Lemma level_iterations L : 0 <= L < 2 ^ 64 -> Z.of_nat (Z.to_nat (u64 L)) = L.
Proof. intros H. rewrite u64_small by assumption. lia. Qed.

Lemma testbit_Quadkey_loop x y L k :
  0 <= L < 2 ^ 64 -> 0 <= k ->
  Z.testbit (Quadkey_loop x y L) k
  = (k <? 64) && (k / 2 <? L) && Z.testbit (if Z.even k then x else y) (k / 2).
Proof.
  intros HL Hk. unfold Quadkey_loop.
  rewrite testbit_Quadkey_iter by assumption.
  now rewrite level_iterations.
Qed.

Lemma Quadkey_loop_range x y L :
  0 <= L <= 32 -> 0 <= Quadkey_loop x y L < 4 ^ L.
Proof.
  intros HL. rewrite pow4_pow2 by lia.
  apply bits_clear_range; [lia|].
  intros k Hk. rewrite testbit_Quadkey_loop by lia.
  replace (k / 2 <? L) with false.
  - now rewrite andb_false_r.
  - symmetry. apply Z.ltb_ge. Z.div_mod_to_equations. lia.
Qed.

(** Only the low [L] bits of [x] and [y] reach the result. *)
Lemma Quadkey_loop_mask x y L :
  0 <= L < 2 ^ 64 ->
  Quadkey_loop x y L = Quadkey_loop (x mod 2 ^ L) (y mod 2 ^ L) L.
Proof.
  intros HL. apply Z.bits_inj'. intros k Hk.
  rewrite !testbit_Quadkey_loop by lia.
  destruct (Z.ltb_spec (k / 2) L) as [Hlt|Hge].
  - destruct (Z.even k); rewrite Z.testbit_mod_pow2 by lia;
      (replace (k / 2 <? L) with true by (cmp_cases; lia)); reflexivity.
  - now rewrite !andb_false_r.
Qed.

Lemma pow4_31 L : 0 <= L <= 31 -> 4 ^ L <= 2 ^ 62.
Proof.
  intros H. rewrite pow4_pow2 by lia. apply Z.pow_le_mono_r; lia.
Qed.

Lemma s64_Quadkey_loop x y L :
  0 <= L <= 31 -> s64 (Quadkey_loop x y L) = Quadkey_loop x y L.
Proof.
  intros HL. apply s64_small.
  pose proof (Quadkey_loop_range x y L ltac:(lia)).
  pose proof (pow4_31 L HL). lia.
Qed.

Lemma testbit_NewPointFromQuadkey_loop key L j :
  0 <= L <= 31 -> 0 <= j ->
  Z.testbit (fst (NewPointFromQuadkey_loop key L)) j
  = (j <? L) && Z.testbit key (2 * j)
  /\ Z.testbit (snd (NewPointFromQuadkey_loop key L)) j
     = (j <? L) && Z.testbit key (2 * j + 1).
Proof.
  intros HL Hj. unfold NewPointFromQuadkey_loop.
  assert (Hn : (Z.to_nat (u64 L) <= 31)%nat) by (rewrite u64_small; lia).
  pose proof (testbit_NewPointFromQuadkey_iter key _ Hn j Hj) as H.
  rewrite level_iterations in H by lia. exact H.
Qed.

Lemma NewPointFromQuadkey_loop_range key L :
  0 <= L <= 31 ->
  0 <= fst (NewPointFromQuadkey_loop key L) < 2 ^ L
  /\ 0 <= snd (NewPointFromQuadkey_loop key L) < 2 ^ L.
Proof.
  intros HL.
  split; (apply bits_clear_range; [lia|]); intros k Hk;
    destruct (testbit_NewPointFromQuadkey_loop key L k HL ltac:(lia)) as [Hx Hy];
    [rewrite Hx | rewrite Hy];
    (replace (k <? L) with false by (cmp_cases; lia)); reflexivity.
Qed.

Lemma NewPointFromQuadkey_loop_Quadkey_loop x y L :
  0 <= L <= 31 -> 0 <= x < 2 ^ L -> 0 <= y < 2 ^ L ->
  NewPointFromQuadkey_loop (Quadkey_loop x y L) L = (x, y).
Proof.
  intros HL Hx Hy.
  rewrite (surjective_pairing (NewPointFromQuadkey_loop _ _)).
  f_equal; apply Z.bits_inj'; intros j Hj;
    destruct (testbit_NewPointFromQuadkey_loop (Quadkey_loop x y L) L j HL Hj)
      as [Ex Ey]; [rewrite Ex | rewrite Ey];
    rewrite testbit_Quadkey_loop by lia;
    rewrite ?div2_double, ?div2_double_succ, ?even_double, ?even_double_succ;
    (destruct (Z.ltb_spec j L) as [Hlt|Hge];
     [ cbn [andb]; rewrite andb_true_r;
       (replace (_ <? 64) with true by (cmp_cases; lia)); reflexivity
     | cbn [andb]; symmetry; eapply testbit_high; eauto ]).
Qed.

Lemma Quadkey_loop_NewPointFromQuadkey_loop key L :
  0 <= L <= 31 -> 0 <= key < 4 ^ L ->
  Quadkey_loop (fst (NewPointFromQuadkey_loop key L))
               (snd (NewPointFromQuadkey_loop key L)) L = key.
Proof.
  intros HL Hkey. apply Z.bits_inj'. intros k Hk.
  rewrite testbit_Quadkey_loop by lia.
  rewrite pow4_pow2 in Hkey by lia.
  destruct (Z.ltb_spec (k / 2) L) as [Hlt|Hge].
  - assert (Hk64 : k < 64) by (Z.div_mod_to_equations; lia).
    replace (k <? 64) with true by (cmp_cases; lia). cbn [andb].
    destruct (testbit_NewPointFromQuadkey_loop key L (k / 2) HL
                ltac:(Z.div_mod_to_equations; lia)) as [Ex Ey].
    pose proof (Z.div_mod k 2 ltac:(lia)) as Hdm.
    rewrite Zeven_mod.
    destruct (Z.eqb_spec (k mod 2) 0) as [He|Ho].
    + rewrite Ex. replace (k / 2 <? L) with true by (cmp_cases; lia).
      cbn [andb]. f_equal. lia.
    + rewrite Ey. replace (k / 2 <? L) with true by (cmp_cases; lia).
      cbn [andb]. f_equal. pose proof (Z.mod_pos_bound k 2). lia.
  - rewrite andb_false_r. cbn [andb]. symmetry.
    eapply testbit_high; [eassumption|]. Z.div_mod_to_equations. lia.
Qed.

Lemma u64_mod_pow2 x L : 0 <= L <= 64 -> u64 x mod 2 ^ L = x mod 2 ^ L.
Proof.
  intros HL. apply Z.bits_inj'. intros k Hk.
  rewrite !Z.testbit_mod_pow2 by lia. rewrite testbit_u64.
  destruct (Z.ltb_spec k L); [|reflexivity].
  replace (k <? 64) with true by (cmp_cases; lia). reflexivity.
Qed.

Lemma Quadkey_in_range
    (project : float64 -> float64 -> Z -> Z * Z) (p : Point) (L : Z) :
  0 <= L <= 31 -> 0 <= Quadkey project p L < 4 ^ L.
Proof.
  intros HL. unfold Quadkey.
  destruct (project (Lng p) (Lat p) (u64 L)) as [x y].
  rewrite s64_Quadkey_loop by assumption.
  apply Quadkey_loop_range. lia.
Qed.

(** C8. At level 0 the quadkey of every point is 0, whatever the projection
    returns: the interleaving loop does not run. *)
Theorem Quadkey_level_zero
    (project : float64 -> float64 -> Z -> Z * Z) (p : Point) :
  Quadkey project p 0 = 0.
Proof.
  unfold Quadkey. destruct (project (Lng p) (Lat p) (u64 0)) as [x y].
  reflexivity.
Qed.

(** C10. For every level [L] in [[0, 31]] the quadkey of a point is at least 0
    and less than [4^L], for every projection: the loop only reads the low [L]
    bits of [x] and [y], so the key is the interleaving of [x mod 2^L] and
    [y mod 2^L], and all its bits from position [2L] on are clear. *)
Theorem Quadkey_range
    (project : float64 -> float64 -> Z -> Z * Z) (p : Point) (L : Z) :
  0 <= L <= 31 ->
  0 <= Quadkey project p L < 4 ^ L
  /\ Quadkey project p L
     = Quadkey_loop (fst (project (Lng p) (Lat p) L) mod 2 ^ L)
                    (snd (project (Lng p) (Lat p) L) mod 2 ^ L) L
  /\ forall k, 2 * L <= k -> Z.testbit (Quadkey project p L) k = false.
Proof.
  intros HL. unfold Quadkey.
  rewrite (u64_small L) by lia.
  destruct (project (Lng p) (Lat p) L) as [x y]. cbn [fst snd].
  rewrite s64_Quadkey_loop by assumption.
  pose proof (Quadkey_loop_range (u64 x) (u64 y) L ltac:(lia)) as R.
  split; [exact R|]. split.
  - rewrite Quadkey_loop_mask by lia.
    rewrite !u64_mod_pow2 by lia. reflexivity.
  - intros k Hk. eapply testbit_high; [|eassumption].
    now rewrite <- pow4_pow2 by lia.
Qed.

Lemma Quadkey_range_witness :
  0 <= Quadkey (project_const (2 ^ 64 - 1) 12345) origin 2 < 4 ^ 2
  /\ Quadkey (project_const (2 ^ 64 - 1) 12345) origin 2
     = Quadkey_loop
         (fst (project_const (2 ^ 64 - 1) 12345 (Lng origin) (Lat origin) 2) mod 2 ^ 2)
         (snd (project_const (2 ^ 64 - 1) 12345 (Lng origin) (Lat origin) 2) mod 2 ^ 2) 2
  /\ forall k, 2 * 2 <= k ->
       Z.testbit (Quadkey (project_const (2 ^ 64 - 1) 12345) origin 2) k = false.
Proof.
  apply (Quadkey_range (project_const (2 ^ 64 - 1) 12345) origin 2). lia.
Defined.

(** C2. For every level [L] in [[0, 31]] the interleaving of [Quadkey] is a
    bijection between the pairs [(x, y)] of [[0, 2^L) x [0, 2^L)] and the keys
    of [[0, 4^L)]: bit [i] of [x] is bit [2i] of the key, bit [i] of [y] is
    bit [2i+1], the loop of [NewPointFromQuadkey] gives [(x, y)] back, and
    every key of the range is the image of the pair that loop extracts. *)
Theorem Quadkey_interleave_bijection (L : Z) :
  0 <= L <= 31 ->
  (forall x y, 0 <= x < 2 ^ L -> 0 <= y < 2 ^ L ->
     0 <= s64 (Quadkey_loop x y L) < 4 ^ L
     /\ (forall i, 0 <= i < L ->
           Z.testbit (s64 (Quadkey_loop x y L)) (2 * i) = Z.testbit x i
           /\ Z.testbit (s64 (Quadkey_loop x y L)) (2 * i + 1) = Z.testbit y i)
     /\ NewPointFromQuadkey_loop (s64 (Quadkey_loop x y L)) L = (x, y))
  /\ (forall key, 0 <= key < 4 ^ L ->
        0 <= fst (NewPointFromQuadkey_loop key L) < 2 ^ L
        /\ 0 <= snd (NewPointFromQuadkey_loop key L) < 2 ^ L
        /\ s64 (Quadkey_loop (fst (NewPointFromQuadkey_loop key L))
                             (snd (NewPointFromQuadkey_loop key L)) L) = key).
Proof.
  intros HL. split.
  - intros x y Hx Hy. rewrite s64_Quadkey_loop by assumption.
    split; [apply Quadkey_loop_range; lia|]. split.
    + intros i Hi. rewrite !testbit_Quadkey_loop by lia.
      rewrite div2_double, div2_double_succ, even_double, even_double_succ.
      replace (i <? L) with true by (cmp_cases; lia).
      replace (2 * i <? 64) with true by (cmp_cases; lia).
      replace (2 * i + 1 <? 64) with true by (cmp_cases; lia).
      split; reflexivity.
    + now apply NewPointFromQuadkey_loop_Quadkey_loop.
  - intros key Hkey.
    destruct (NewPointFromQuadkey_loop_range key L HL) as [Rx Ry].
    split; [exact Rx|]. split; [exact Ry|].
    rewrite s64_Quadkey_loop by assumption.
    now apply Quadkey_loop_NewPointFromQuadkey_loop.
Qed.

Lemma Quadkey_interleave_bijection_witness :
  (0 <= s64 (Quadkey_loop 8405 12182 15) < 4 ^ 15
   /\ (forall i, 0 <= i < 15 ->
         Z.testbit (s64 (Quadkey_loop 8405 12182 15)) (2 * i) = Z.testbit 8405 i
         /\ Z.testbit (s64 (Quadkey_loop 8405 12182 15)) (2 * i + 1)
            = Z.testbit 12182 i)
   /\ NewPointFromQuadkey_loop (s64 (Quadkey_loop 8405 12182 15)) 15
      = (8405, 12182))
  /\ (0 <= fst (NewPointFromQuadkey_loop 212521785 15) < 2 ^ 15
      /\ 0 <= snd (NewPointFromQuadkey_loop 212521785 15) < 2 ^ 15
      /\ s64 (Quadkey_loop (fst (NewPointFromQuadkey_loop 212521785 15))
                           (snd (NewPointFromQuadkey_loop 212521785 15)) 15)
         = 212521785).
Proof.
  split.
  - apply (proj1 (Quadkey_interleave_bijection 15 ltac:(lia)) 8405 12182); lia.
  - apply (proj2 (Quadkey_interleave_bijection 15 ltac:(lia)) 212521785); lia.
Defined.

(** ** The string loop of [GeoHash] *)

Lemma for_up_GeoHash_panicked precision n :
  forall i, for_up (GeoHash_step precision) i n None = None.
Proof.
  induction n as [|n IH]; intros i; [reflexivity|]. simpl. apply IH.
Qed.

Lemma land_31_range h : 0 <= Z.land h 31 < 32.
Proof.
  change 31 with (Z.ones 5). rewrite Z.land_ones by lia.
  apply Z.mod_pos_bound. lia.
Qed.

(** Indexing the alphabet with a 5-bit value never panics. *)
Lemma string_index_base32 v :
  0 <= v < 32 -> string_index base32 v = Some (base32_char v).
Proof.
  intros Hv. unfold string_index, base32_char.
  destruct (Z.leb_spec 0 v); [|lia].
  assert (Hn : (Z.to_nat v < 32)%nat) by lia.
  generalize dependent (Z.to_nat v). intros n Hn.
  do 32 (destruct n as [|n]; [reflexivity|]). lia.
Qed.

Lemma array_set_middle (l1 l2 : list ascii) (x c : ascii) (k : Z) :
  k = Z.of_nat (List.length l1) ->
  array_set (l1 ++ x :: l2) k c = Some (l1 ++ c :: l2).
Proof.
  intros ->. unfold array_set.
  rewrite length_app. cbn [List.length].
  destruct (Z.leb_spec 0 (Z.of_nat (List.length l1))); [|lia].
  destruct (Z.ltb_spec (Z.of_nat (List.length l1))
              (Z.of_nat (List.length l1 + Datatypes.S (List.length l2))));
    [|lia].
  cbn [andb]. rewrite Nat2Z.id.
  rewrite firstn_app, firstn_all, Nat.sub_diag. cbn [firstn].
  rewrite app_nil_r. do 2 f_equal.
  replace (Datatypes.S (List.length l1))
    with (List.length (l1 ++ [x])) by (rewrite length_app; cbn; lia).
  replace (l1 ++ x :: l2) with ((l1 ++ [x]) ++ l2)
    by (now rewrite <- app_assoc).
  now rewrite skipn_app, skipn_all, Nat.sub_diag.
Qed.

Lemma repeat_snoc {A : Type} (a : A) n :
  repeat a (Datatypes.S n) = repeat a n ++ [a].
Proof.
  induction n as [|n IH]; [reflexivity|].
  simpl in *. f_equal. exact IH.
Qed.

(** The recursion of [base32_string], unfolded at the other end: the
    character of the most significant group comes first. *)
Lemma base32_string_cons k :
  forall acc,
    base32_string (Datatypes.S k) acc
    = base32_char (Z.land (Z.shiftr acc (5 * Z.of_nat k)) 31)
      :: base32_string k acc.
Proof.
  induction k as [|k IH]; intros acc.
  - cbn [base32_string]. now rewrite Z.shiftr_0_r.
  - change (base32_string (Datatypes.S (Datatypes.S k)) acc)
      with (base32_string (Datatypes.S k) (Z.shiftr acc 5)
            ++ [base32_char (Z.land acc 31)]).
    rewrite IH. rewrite Z.shiftr_shiftr by lia.
    replace (5 + 5 * Z.of_nat k) with (5 * Z.of_nat (Datatypes.S k)) by lia.
    reflexivity.
Qed.

Lemma length_base32_string k : forall acc, List.length (base32_string k acc) = k.
Proof.
  induction k as [|k IH]; intros acc; [reflexivity|].
  cbn [base32_string]. rewrite length_app, IH. cbn. lia.
Qed.

(** The buffer and the accumulator after [j] iterations of the loop. *)
Lemma GeoHash_loop_invariant (c : nat) (h : Z) :
  (c <= 15)%nat ->
  forall j, (j <= c)%nat ->
    for_up (GeoHash_step (Z.of_nat c)) 1 j (Some (repeat Ascii.zero 15, h))
    = Some (repeat Ascii.zero (c - j) ++ base32_string j h
              ++ repeat Ascii.zero (15 - c),
            Z.shiftr h (5 * Z.of_nat j)).
Proof.
  intros Hc. induction j as [|j IH]; intros Hj.
  - cbn [for_up base32_string app]. rewrite Nat.sub_0_r, Z.shiftr_0_r.
    rewrite <- repeat_app. do 3 f_equal. lia.
  - rewrite for_up_snoc, IH by lia. cbn [GeoHash_step].
    rewrite string_index_base32 by apply land_31_range.
    replace (c - j)%nat with (Datatypes.S (c - Datatypes.S j)) by lia.
    rewrite repeat_snoc, <- app_assoc. cbn [app].
    rewrite array_set_middle
      by (rewrite repeat_length; lia).
    unfold shr_s64. cbn [Z.leb Z.compare Pos.compare Pos.compare_cont].
    rewrite Z.shiftr_shiftr by lia.
    rewrite (base32_string_cons j h). cbn [app].
    replace (5 * Z.of_nat j + 5) with (5 * Z.of_nat (Datatypes.S j)) by lia.
    reflexivity.
Qed.

Lemma length_string_of_list_ascii l :
  String.length (string_of_list_ascii l) = List.length l.
Proof.
  induction l as [|a l IH]; [reflexivity|]. cbn. now rewrite IH.
Qed.

Lemma len_base32_string k acc :
  len (string_of_list_ascii (base32_string k acc)) = Z.of_nat k.
Proof.
  unfold len. now rewrite length_string_of_list_ascii, length_base32_string.
Qed.

(** Within the buffer, [GeoHash] returns the string of the accumulator. *)
Lemma GeoHash_in_range p c more :
  0 <= c <= 15 ->
  GeoHash p (c :: more)
  = Some (string_of_list_ascii
            (base32_string (Z.to_nat c) (GeoHashInt64 p (5 * c)))).
Proof.
  intros Hc. unfold GeoHash.
  rewrite (s64_small (5 * c)) by lia.
  set (h := GeoHashInt64 p (5 * c)). clearbody h.
  rewrite <- (Z2Nat.id c) at 1 by lia.
  rewrite GeoHash_loop_invariant by lia.
  destruct (Z.leb_spec 0 c); [|lia].
  destruct (Z.leb_spec c 15); [|lia].
  cbn [andb]. rewrite Nat.sub_diag. cbn [repeat app].
  rewrite firstn_app, length_base32_string, Nat.sub_diag.
  cbn [firstn]. rewrite app_nil_r.
  rewrite firstn_all2 by (rewrite length_base32_string; lia).
  reflexivity.
Qed.

(** Outside the buffer, [GeoHash] panics: on the first store when the
    precision exceeds 15, on the final slice when it is negative. *)
Lemma GeoHash_out_of_range p c more :
  c < 0 \/ 15 < c -> GeoHash p (c :: more) = None.
Proof.
  intros Hc. unfold GeoHash.
  set (h := GeoHashInt64 p (s64 (5 * c))). clearbody h.
  destruct Hc as [Hneg|Hbig].
  - replace (Z.to_nat c) with O by lia. cbn [for_up].
    destruct (Z.leb_spec 0 c); [lia|]. reflexivity.
  - destruct (Z.to_nat c) as [|n] eqn:E; [lia|].
    cbn [for_up GeoHash_step].
    destruct (string_index base32 (Z.land h 31)) as [ch|];
      [|now rewrite for_up_GeoHash_panicked].
    unfold array_set. rewrite repeat_length.
    destruct (Z.ltb_spec (c - 1) (Z.of_nat 15)); [lia|].
    rewrite andb_false_r. now rewrite for_up_GeoHash_panicked.
Qed.

(** C9. [GeoHash] returns only for a precision in [[0, 15]]: a negative
    precision or one above 15 makes it panic on its 15-byte buffer, and a
    precision [c] in [[0, 15]] gives a string of length [c]. *)
Theorem GeoHash_total_range (p : Point) (c : Z) (more : list Z) :
  (c < 0 \/ 15 < c -> GeoHash p (c :: more) = None)
  /\ (0 <= c <= 15 -> exists s, GeoHash p (c :: more) = Some s /\ len s = c).
Proof.
  split.
  - apply GeoHash_out_of_range.
  - intros Hc. eexists. split; [now apply GeoHash_in_range|].
    rewrite len_base32_string. lia.
Qed.

Lemma GeoHash_total_range_witness :
  GeoHash aalborg [16] = None
  /\ GeoHash aalborg [-1] = None
  /\ exists s, GeoHash aalborg [8] = Some s /\ len s = 8.
Proof.
  split; [|split].
  - apply (proj1 (GeoHash_total_range aalborg 16 [])). lia.
  - apply (proj1 (GeoHash_total_range aalborg (-1) [])). lia.
  - apply (proj2 (GeoHash_total_range aalborg 8 [])). lia.
Defined.

(** C4, counterexample: at precision 16 there is no string at all. *)
Lemma GeoHash_precision_16_panics : GeoHash aalborg [16] = None.
Proof. vm_compute. reflexivity. Qed.

(** C4, amended. For every point and every precision [c] in [[0, 15]],
    [GeoHash] is the string of exactly [c] characters read off
    [GeoHashInt64 p (5 * c)] five bits at a time from the least-significant
    end, each group mapped through the alphabet and stored at the last
    unfilled position, so that the last group extracted is the first
    character. *)
Theorem GeoHash_base32_string (p : Point) (c : Z) (more : list Z) :
  0 <= c <= 15 ->
  GeoHash p (c :: more)
  = Some (string_of_list_ascii
            (base32_string (Z.to_nat c) (GeoHashInt64 p (5 * c))))
  /\ len (string_of_list_ascii
            (base32_string (Z.to_nat c) (GeoHashInt64 p (5 * c)))) = c.
Proof.
  intros Hc. split; [now apply GeoHash_in_range|].
  rewrite len_base32_string. lia.
Qed.

Lemma GeoHash_base32_string_witness :
  GeoHash aalborg [8]
  = Some (string_of_list_ascii
            (base32_string (Z.to_nat 8) (GeoHashInt64 aalborg (5 * 8))))
  /\ len (string_of_list_ascii
            (base32_string (Z.to_nat 8) (GeoHashInt64 aalborg (5 * 8)))) = 8.
Proof.
  apply (GeoHash_base32_string aalborg 8 []). lia.
Defined.

(** The first city of the package's geohash tests. *)
Example GeoHash_aalborg : GeoHash aalborg [8] = Some "u4phb4hw"%string.
Proof. vm_compute. reflexivity. Qed.

(** ** The bisection loop of [GeoHashInt64] *)

Lemma even_of_nat n : Z.even (Z.of_nat n) = Nat.even n.
Proof.
  induction n as [|n IH]; [reflexivity|].
  rewrite Nat2Z.inj_succ, Z.even_succ, Nat.even_succ.
  now rewrite <- Z.negb_even, <- Nat.negb_even, IH.
Qed.

Lemma rem2_of_nat n : (Z.rem (Z.of_nat n) 2 =? 0) = Nat.even n.
Proof.
  rewrite Z.rem_mod_nonneg by lia.
  now rewrite <- Zeven_mod, even_of_nat.
Qed.

Lemma shl_s64_one a : shl_s64 a 1 = s64 (2 * a).
Proof.
  unfold shl_s64. cbn [Z.leb Z.compare Pos.compare Pos.compare_cont].
  rewrite Z.shiftl_mul_pow2 by lia. f_equal. lia.
Qed.

Lemma lor_double_bit a (b : bool) : Z.lor (2 * a) (Z.b2z b) = 2 * a + Z.b2z b.
Proof.
  apply Z.bits_inj'. intros k Hk. rewrite Z.lor_spec.
  destruct (Z.eq_dec k 0) as [->|Hne].
  - rewrite Z.testbit_0_r, Z.b2z_bit0.
    replace (2 * a) with (2 * a + Z.b2z false) by (cbn; lia).
    now rewrite Z.testbit_0_r.
  - replace k with (Z.succ (k - 1)) by lia.
    rewrite Z.testbit_succ_r, Z.testbit_even_succ by lia.
    replace (Z.b2z b) with (2 * 0 + Z.b2z b) by lia.
    rewrite Z.testbit_succ_r, Z.testbit_0_l by lia.
    now rewrite orb_false_r.
Qed.

(** [emit] on wrapped accumulators is doubling and adding, wrapped. *)
Lemma emit_s64 a (b : bool) : emit (s64 a) b = s64 (2 * a + Z.b2z b).
Proof.
  unfold emit. rewrite shl_s64_one.
  assert (E : exists m, s64 (2 * s64 a) = 2 * m /\ s64 (2 * a + Z.b2z b) = 2 * m + Z.b2z b).
  { exists (s64 (2 * s64 a) / 2). unfold s64.
    destruct b; cbn [Z.b2z]; Z.div_mod_to_equations; lia. }
  destruct E as [m [E1 E2]]. rewrite E1, E2. apply lor_double_bit.
Qed.

Lemma bits_value_snoc bits b :
  bits_value (bits ++ [b]) = 2 * bits_value bits + Z.b2z b.
Proof. unfold bits_value. now rewrite fold_left_app. Qed.

Lemma fold_emit_snoc bits b acc :
  fold_left emit (bits ++ [b]) acc = emit (fold_left emit bits acc) b.
Proof. now rewrite fold_left_app. Qed.

(** The wrapped accumulator is the value of the emitted bits, wrapped. *)
Lemma fold_emit_bits_value bits :
  fold_left emit bits 0 = s64 (bits_value bits).
Proof.
  induction bits as [|b bits IH] using rev_ind; [reflexivity|].
  now rewrite fold_emit_snoc, bits_value_snoc, IH, emit_s64.
Qed.

Lemma bits_value_range bits :
  0 <= bits_value bits < 2 ^ Z.of_nat (List.length bits).
Proof.
  induction bits as [|b bits IH] using rev_ind; [cbn; lia|].
  rewrite bits_value_snoc, length_app. cbn [List.length].
  replace (Z.of_nat (List.length bits + 1)) with (Z.succ (Z.of_nat (List.length bits))) by lia.
  rewrite Z.pow_succ_r by lia.
  destruct b; cbn [Z.b2z]; lia.
Qed.

(** Most significant bit first: bit [i] of the list is bit [len - 1 - i] of
    its value. *)
Lemma testbit_bits_value bits :
  forall i, (i < List.length bits)%nat ->
    Z.testbit (bits_value bits) (Z.of_nat (List.length bits) - 1 - Z.of_nat i)
    = nth i bits false.
Proof.
  induction bits as [|b bits IH] using rev_ind; intros i Hi; [cbn in Hi; lia|].
  rewrite length_app in *. cbn [List.length] in *.
  rewrite bits_value_snoc.
  destruct (Nat.eq_dec i (List.length bits)) as [->|Hne].
  - replace (Z.of_nat (List.length bits + 1) - 1 - Z.of_nat (List.length bits))
      with 0 by lia.
    rewrite Z.testbit_0_r, app_nth2, Nat.sub_diag by lia. reflexivity.
  - replace (Z.of_nat (List.length bits + 1) - 1 - Z.of_nat i)
      with (Z.succ (Z.of_nat (List.length bits) - 1 - Z.of_nat i)) by lia.
    rewrite Z.testbit_succ_r by lia.
    rewrite app_nth1 by lia. apply IH. lia.
Qed.

Lemma length_bisection_bits p n : List.length (bisection_bits p n) = n.
Proof.
  unfold bisection_bits. induction n as [|n IH]; [reflexivity|].
  cbn [bisection]. destruct (bisection p n) as [[bits lng] lat].
  cbn [fst] in IH.
  destruct (Nat.even n);
    [destruct (bisect (Lng p) lng) | destruct (bisect (Lat p) lat)];
    cbn [fst]; rewrite length_app, IH; cbn; lia.
Qed.

(** The loop of the code and the bisection of the specification, step by
    step: same accumulator, same bounds. *)
Lemma GeoHashInt64_iter_bisection p n :
  let st := for_up (GeoHashInt64_step p) 0 n geoHashInit in
  let '(bits, lng, lat) := bisection p n in
  hash st = fold_left emit bits 0
  /\ (lngMin st, lngMax st) = lng
  /\ (latMin st, latMax st) = lat.
Proof.
  induction n as [|n IH].
  - cbn. repeat split; reflexivity.
  - cbv zeta in *. rewrite for_up_snoc, Z.add_0_l.
    cbn [bisection].
    destruct (bisection p n) as [[bits lng] lat].
    destruct IH as [Hh [Hlng Hlat]].
    set (st := for_up (GeoHashInt64_step p) 0 n geoHashInit) in *.
    unfold GeoHashInt64_step. rewrite rem2_of_nat.
    destruct (Nat.even n).
    + unfold bisect. rewrite <- Hlng. cbn [fst snd]. unfold Lng.
      destruct (f64_gt (fst p) (f64_mid (lngMin st) (lngMax st)));
        cbn [hash lngMin lngMax latMin latMax];
        rewrite fold_emit_snoc, <- Hh; unfold emit; cbn [Z.b2z];
        rewrite ?Z.lor_0_r; repeat split; assumption.
    + unfold bisect. rewrite <- Hlat. cbn [fst snd]. unfold Lat.
      destruct (f64_gt (snd p) (f64_mid (latMin st) (latMax st)));
        cbn [hash lngMin lngMax latMin latMax];
        rewrite fold_emit_snoc, <- Hh; unfold emit; cbn [Z.b2z];
        rewrite ?Z.lor_0_r; repeat split; assumption.
Qed.

(** Wrapping to [int64] keeps the low 64 bits. *)
Lemma testbit_s64 v k : 0 <= k < 64 -> Z.testbit (s64 v) k = Z.testbit v k.
Proof.
  intros Hk.
  assert (E : s64 v mod 2 ^ 64 = v mod 2 ^ 64).
  { unfold s64. Z.div_mod_to_equations. lia. }
  assert (T : forall a, Z.testbit (a mod 2 ^ 64) k = Z.testbit a k).
  { intros a. rewrite Z.testbit_mod_pow2 by lia.
    destruct (Z.ltb_spec k 64); [reflexivity|lia]. }
  now rewrite <- (T (s64 v)), E, T.
Qed.

Lemma GeoHashInt64_s64_bits_value p n :
  GeoHashInt64 p n = s64 (bits_value (bisection_bits p (Z.to_nat n))).
Proof.
  unfold GeoHashInt64, GeoHashInt64_loop, bisection_bits.
  pose proof (GeoHashInt64_iter_bisection p (Z.to_nat n)) as H.
  cbv zeta in H. destruct (bisection p (Z.to_nat n)) as [[bits lng] lat].
  destruct H as [H _]. rewrite H. apply fold_emit_bits_value.
Qed.

Lemma GeoHashInt64_bits_value p n :
  n <= 63 -> GeoHashInt64 p n = bits_value (bisection_bits p (Z.to_nat n)).
Proof.
  intros Hn. rewrite GeoHashInt64_s64_bits_value. apply s64_small.
  pose proof (bits_value_range (bisection_bits p (Z.to_nat n))) as R.
  rewrite length_bisection_bits in R.
  assert (2 ^ Z.of_nat (Z.to_nat n) <= 2 ^ 63) by (apply Z.pow_le_mono_r; lia).
  lia.
Qed.

(** C3. [GeoHashInt64 p n] is the accumulator of [n] bisection steps from
    the ranges [[-180, 180]] and [[-90, 90]]: step [k] (0-based) bisects the
    longitude for even [k] and the latitude for odd [k], shifts the
    accumulator left by one and ORs in the bit, which is 1 with the lower
    bound raised to the midpoint exactly when the coordinate exceeds the
    midpoint, else 0 with the upper bound lowered.  The bounds of the loop
    are those of the bisection, and the bits appear most significant first:
    the [i]-th bit emitted is bit [n - 1 - i] of the result, for every bit
    that is still within the 64 bits of the accumulator. *)
Theorem GeoHashInt64_bisection (p : Point) (n : Z) :
  GeoHashInt64 p n = fold_left emit (bisection_bits p (Z.to_nat n)) 0
  /\ List.length (bisection_bits p (Z.to_nat n)) = Z.to_nat n
  /\ (lngMin (GeoHashInt64_loop p n), lngMax (GeoHashInt64_loop p n),
      (latMin (GeoHashInt64_loop p n), latMax (GeoHashInt64_loop p n)))
     = (snd (fst (bisection p (Z.to_nat n))), snd (bisection p (Z.to_nat n)))
  /\ (forall i, 0 <= i < n -> n - 1 - i < 64 ->
        Z.testbit (GeoHashInt64 p n) (n - 1 - i)
        = nth (Z.to_nat i) (bisection_bits p (Z.to_nat n)) false)
  /\ (n <= 63 -> GeoHashInt64 p n = bits_value (bisection_bits p (Z.to_nat n))).
Proof.
  split; [|split; [|split; [|split]]].
  - unfold GeoHashInt64, GeoHashInt64_loop, bisection_bits.
    pose proof (GeoHashInt64_iter_bisection p (Z.to_nat n)) as H.
    cbv zeta in H. destruct (bisection p (Z.to_nat n)) as [[bits lng] lat].
    apply H.
  - apply length_bisection_bits.
  - unfold GeoHashInt64_loop.
    pose proof (GeoHashInt64_iter_bisection p (Z.to_nat n)) as H.
    cbv zeta in H. destruct (bisection p (Z.to_nat n)) as [[bits lng] lat].
    destruct H as [_ [Hlng Hlat]]. cbn [fst snd].
    now rewrite <- Hlng, <- Hlat.
  - intros i Hi Hpos. rewrite GeoHashInt64_s64_bits_value.
    rewrite testbit_s64 by lia.
    pose proof (testbit_bits_value (bisection_bits p (Z.to_nat n)) (Z.to_nat i)) as T.
    rewrite length_bisection_bits in T.
    rewrite <- T by lia. f_equal. lia.
  - apply GeoHashInt64_bits_value.
Qed.

Lemma GeoHashInt64_bisection_witness :
  GeoHashInt64 aalborg 40 = fold_left emit (bisection_bits aalborg (Z.to_nat 40)) 0
  /\ Z.testbit (GeoHashInt64 aalborg 40) (40 - 1 - 0)
     = nth (Z.to_nat 0) (bisection_bits aalborg (Z.to_nat 40)) false
  /\ GeoHashInt64 aalborg 40 = bits_value (bisection_bits aalborg (Z.to_nat 40)).
Proof.
  split; [|split].
  - apply (proj1 (GeoHashInt64_bisection aalborg 40)).
  - apply (proj1 (proj2 (proj2 (proj2 (GeoHashInt64_bisection aalborg 40))))); lia.
  - apply (proj2 (proj2 (proj2 (proj2 (GeoHashInt64_bisection aalborg 40))))). lia.
Defined.

(** The first five bits of that city: the character [u], index 26. *)
Example GeoHashInt64_aalborg_first_bits :
  bisection_bits aalborg 5 = [true; true; false; true; false]
  /\ GeoHashInt64 aalborg 5 = 26.
Proof. vm_compute. split; reflexivity. Qed.

(** ** Order of floats *)

Ltac float_order :=
  repeat match goal with
    | |- context [Z.compare ?a ?b] => destruct (Z.compare_spec a b)
    | |- context [Pos.compare_cont Eq ?a ?b] =>
        change (Pos.compare_cont Eq a b) with (Pos.compare a b);
        destruct (Pos.compare_spec a b)
    end;
  subst; cbn; try reflexivity; try discriminate; try lia.

Ltac float_cases a b m :=
  destruct a as [?|?| |? ? ?], b as [?|?| |? ? ?], m as [?|?| |? ? ?];
  cbn; try discriminate; try reflexivity;
  repeat match goal with s : bool |- _ => destruct s end;
  cbn; try discriminate; try reflexivity;
  float_order.

(** [m < a] and [a <= b] give [m < b]. *)
Lemma f64_gt_le_trans (a b m : float64) :
  f64_le a b = true -> f64_gt a m = true -> f64_gt b m = true.
Proof.
  unfold f64_le, f64_gt, SFleb, SFltb. float_cases a b m.
Qed.

(** Floats that are [==] compare alike with every float. *)
Lemma f64_gt_eq_compat (a b m : float64) :
  f64_eq a b = true -> f64_gt a m = f64_gt b m.
Proof.
  unfold f64_eq, f64_gt, SFeqb, SFltb. float_cases a b m.
Qed.

(** ** Order of the hashes *)

(** Wrapping keeps the order inside an aligned block of [2^m <= 2^63]
    consecutive integers. *)
Lemma s64_block_mono T m R1 R2 :
  0 <= m <= 63 -> 0 <= R1 -> R1 <= R2 -> R2 < 2 ^ m ->
  s64 (T * 2 ^ m + R1) <= s64 (T * 2 ^ m + R2).
Proof.
  intros Hm HR0 HR12 HR2.
  assert (Hp : 0 < 2 ^ m) by (apply Z.pow_pos_nonneg; lia).
  assert (Hq : 0 < 2 ^ (64 - m)) by (apply Z.pow_pos_nonneg; lia).
  assert (E64 : 2 ^ 64 = 2 ^ m * 2 ^ (64 - m))
    by (rewrite <- Z.pow_add_r by lia; f_equal; lia).
  assert (E63 : 2 ^ 63 = 2 ^ (63 - m) * 2 ^ m)
    by (rewrite <- Z.pow_add_r by lia; f_equal; lia).
  assert (W : forall R, 0 <= R < 2 ^ m ->
            s64 (T * 2 ^ m + R)
            = R + 2 ^ m * ((T + 2 ^ (63 - m)) mod 2 ^ (64 - m)) - 2 ^ 63).
  { intros R HR'. unfold s64. rewrite E64 at 1.
    rewrite Z.rem_mul_r by lia.
    replace (T * 2 ^ m + R + 2 ^ 63) with (R + (T + 2 ^ (63 - m)) * 2 ^ m)
      by (rewrite E63 at 1; ring).
    rewrite Z.mod_add, Z.div_add by lia.
    rewrite Z.mod_small, Z.div_small by lia.
    reflexivity. }
  rewrite !W by lia. lia.
Qed.

(** A longitude step, in terms of the bit it emits. *)
Lemma GeoHashInt64_step_lng p i st :
  (Z.rem i 2 =? 0) = true ->
  let mid := f64_mid (lngMin st) (lngMax st) in
  let b := f64_gt (fst p) mid in
  let st' := GeoHashInt64_step p i st in
  hash st' = emit (hash st) b
  /\ latMin st' = latMin st /\ latMax st' = latMax st
  /\ lngMin st' = (if b then mid else lngMin st)
  /\ lngMax st' = (if b then lngMax st else mid).
Proof.
  intros Hi. cbv zeta. unfold GeoHashInt64_step, emit. rewrite Hi.
  destruct (f64_gt (fst p) (f64_mid (lngMin st) (lngMax st)));
    cbn [hash latMin latMax lngMin lngMax Z.b2z];
    rewrite ?Z.lor_0_r; repeat split; reflexivity.
Qed.

(** A latitude step, in terms of the bit it emits. *)
Lemma GeoHashInt64_step_lat p i st :
  (Z.rem i 2 =? 0) = false ->
  let mid := f64_mid (latMin st) (latMax st) in
  let b := f64_gt (snd p) mid in
  let st' := GeoHashInt64_step p i st in
  hash st' = emit (hash st) b
  /\ lngMin st' = lngMin st /\ lngMax st' = lngMax st
  /\ latMin st' = (if b then mid else latMin st)
  /\ latMax st' = (if b then latMax st else mid).
Proof.
  intros Hi. cbv zeta. unfold GeoHashInt64_step, emit. rewrite Hi.
  destruct (f64_gt (snd p) (f64_mid (latMin st) (latMax st)));
    cbn [hash latMin latMax lngMin lngMax Z.b2z];
    rewrite ?Z.lor_0_r; repeat split; reflexivity.
Qed.

(** Two runs of the loop from a common state, for points of equal latitude
    and ordered longitudes: the bits emitted by the first run denote a
    number [R1] that is at most the number [R2] of the second run; the
    latitude bounds agree, and so do the longitude bounds as long as the bits
    do. *)
Lemma GeoHashInt64_pair p1 p2 s T i0 :
  f64_eq (snd p1) (snd p2) = true ->
  f64_le (fst p1) (fst p2) = true ->
  hash s = s64 T ->
  forall m,
    let st1 := for_up (GeoHashInt64_step p1) i0 m s in
    let st2 := for_up (GeoHashInt64_step p2) i0 m s in
    exists R1 R2,
      hash st1 = s64 (T * 2 ^ Z.of_nat m + R1)
      /\ hash st2 = s64 (T * 2 ^ Z.of_nat m + R2)
      /\ 0 <= R1 /\ R1 <= R2 /\ R2 < 2 ^ Z.of_nat m
      /\ latMin st1 = latMin st2 /\ latMax st1 = latMax st2
      /\ (R1 = R2 -> lngMin st1 = lngMin st2 /\ lngMax st1 = lngMax st2).
Proof.
  intros Hlat Hlng Hs. induction m as [|m IH]; cbv zeta in *.
  - exists 0, 0. cbn [for_up]. rewrite Z.pow_0_r, Z.mul_1_r, Z.add_0_r.
    repeat split; try assumption; try reflexivity; lia.
  - destruct IH as (R1 & R2 & H1 & H2 & HR0 & HR12 & HR2 & Hmin & Hmax & Htied).
    rewrite !for_up_snoc.
    set (st1 := for_up (GeoHashInt64_step p1) i0 m s) in *.
    set (st2 := for_up (GeoHashInt64_step p2) i0 m s) in *.
    set (i := i0 + Z.of_nat m).
    rewrite Nat2Z.inj_succ, Z.pow_succ_r by lia.
    assert (Hemit : forall R (b : bool),
              emit (s64 (T * 2 ^ Z.of_nat m + R)) b
              = s64 (T * (2 * 2 ^ Z.of_nat m) + (2 * R + Z.b2z b))).
    { intros R b. rewrite emit_s64. f_equal. ring. }
    destruct (Z.rem i 2 =? 0) eqn:Hi.
    + destruct (GeoHashInt64_step_lng p1 i st1 Hi) as (A1 & A2 & A3 & A4 & A5).
      destruct (GeoHashInt64_step_lng p2 i st2 Hi) as (B1 & B2 & B3 & B4 & B5).
      set (b1 := f64_gt (fst p1) (f64_mid (lngMin st1) (lngMax st1))) in *.
      set (b2 := f64_gt (fst p2) (f64_mid (lngMin st2) (lngMax st2))) in *.
      assert (Hb : R1 = R2 -> b1 = true -> b2 = true).
      { intros E Hb1. destruct (Htied E) as [E1 E2]. unfold b2.
        rewrite <- E1, <- E2. eapply f64_gt_le_trans; eassumption. }
      clearbody b1 b2.
      exists (2 * R1 + Z.b2z b1), (2 * R2 + Z.b2z b2).
      rewrite A1, B1, H1, H2, !Hemit, A2, A3, B2, B3.
      split; [reflexivity|]. split; [reflexivity|].
      split; [destruct b1; cbn [Z.b2z]; lia|].
      split.
      { destruct (Z.eq_dec R1 R2) as [E|NE].
        - specialize (Hb E). destruct b1, b2; cbn [Z.b2z]; try lia;
            specialize (Hb eq_refl); discriminate.
        - destruct b1, b2; cbn [Z.b2z]; lia. }
      split; [destruct b2; cbn [Z.b2z]; lia|].
      split; [assumption|]. split; [assumption|].
      intros E.
      assert (ER : R1 = R2) by (destruct b1, b2; cbn [Z.b2z] in E; lia).
      assert (Eb : b1 = b2) by (destruct b1, b2; cbn [Z.b2z] in E; try reflexivity; lia).
      destruct (Htied ER) as [E1 E2].
      rewrite A4, A5, B4, B5, <- Eb, E1, E2. split; reflexivity.
    + destruct (GeoHashInt64_step_lat p1 i st1 Hi) as (A1 & A2 & A3 & A4 & A5).
      destruct (GeoHashInt64_step_lat p2 i st2 Hi) as (B1 & B2 & B3 & B4 & B5).
      rewrite <- Hmin, <- Hmax in B1, B4, B5.
      rewrite <- (f64_gt_eq_compat _ _ _ Hlat) in B1, B4, B5.
      set (b := f64_gt (snd p1) (f64_mid (latMin st1) (latMax st1))) in *.
      clearbody b.
      exists (2 * R1 + Z.b2z b), (2 * R2 + Z.b2z b).
      rewrite A1, B1, H1, H2, !Hemit, A2, A3, B2, B3, A4, A5, B4, B5.
      split; [reflexivity|]. split; [reflexivity|].
      split; [destruct b; cbn [Z.b2z]; lia|].
      split; [lia|].
      split; [destruct b; cbn [Z.b2z]; lia|].
      split; [now rewrite Hmin|]. split; [now rewrite Hmax|].
      intros E. apply Htied. lia.
Qed.

(** After the first two iterations, points on the same side of the prime
    meridian and of equal latitude are in the same state. *)
Lemma GeoHashInt64_two_steps p1 p2 :
  f64_eq (Lat p1) (Lat p2) = true ->
  same_hemisphere p1 p2 ->
  for_up (GeoHashInt64_step p1) 0 2 geoHashInit
  = for_up (GeoHashInt64_step p2) 0 2 geoHashInit.
Proof.
  unfold same_hemisphere, Lat, Lng. intros Hlat Hhem.
  cbn [for_up]. unfold GeoHashInt64_step at 2 4.
  change (Z.rem 0 2 =? 0) with true. cbv iota.
  change (f64_mid (lngMin geoHashInit) (lngMax geoHashInit)) with (f64_of_Z 0).
  rewrite Hhem.
  destruct (f64_gt (fst p2) (f64_of_Z 0));
    unfold GeoHashInt64_step;
    change (Z.rem (0 + 1) 2 =? 0) with false; cbv iota;
    cbn [hash latMin latMax lngMin lngMax];
    rewrite (f64_gt_eq_compat _ _ _ Hlat); reflexivity.
Qed.

Lemma GeoHashInt64_monotone_short p1 p2 n :
  n <= 63 ->
  f64_eq (Lat p1) (Lat p2) = true ->
  f64_le (Lng p1) (Lng p2) = true ->
  GeoHashInt64 p1 n <= GeoHashInt64 p2 n.
Proof.
  intros Hn Hlat Hlng. unfold GeoHashInt64, GeoHashInt64_loop.
  destruct (GeoHashInt64_pair p1 p2 geoHashInit 0 0 Hlat Hlng eq_refl (Z.to_nat n))
    as (R1 & R2 & H1 & H2 & HR0 & HR12 & HR2 & _).
  rewrite H1, H2. apply s64_block_mono; lia.
Qed.

(** C5, counterexample: at 66 bits the second longitude bit is the sign bit
    of the result. *)
Lemma GeoHashInt64_not_monotone_66 :
  f64_eq (Lat east10) (Lat east100) = true
  /\ same_hemisphere east10 east100
  /\ f64_le (Lng east10) (Lng east100) = true
  /\ GeoHashInt64 east100 66 < GeoHashInt64 east10 66.
Proof. vm_compute. repeat split; reflexivity. Qed.

(** C5, amended. For every bit count [n <= 65] and every two points of equal
    latitude, on the same side of the prime meridian (both longitudes exceed
    0, or neither does), with the longitude of the first at most that of the
    second, the hash of the first is at most the hash of the second. *)
Theorem GeoHashInt64_monotone (p1 p2 : Point) (n : Z) :
  n <= 65 ->
  f64_eq (Lat p1) (Lat p2) = true ->
  same_hemisphere p1 p2 ->
  f64_le (Lng p1) (Lng p2) = true ->
  GeoHashInt64 p1 n <= GeoHashInt64 p2 n.
Proof.
  intros Hn Hlat Hhem Hlng.
  destruct (Z.le_gt_cases n 63) as [Hsmall|Hbig].
  - now apply GeoHashInt64_monotone_short.
  - unfold GeoHashInt64, GeoHashInt64_loop.
    replace (Z.to_nat n) with (2 + Z.to_nat (n - 2))%nat by lia.
    rewrite !for_up_add.
    rewrite <- (GeoHashInt64_two_steps p1 p2 Hlat Hhem).
    pose proof (GeoHashInt64_s64_bits_value p1 2) as HT.
    unfold GeoHashInt64, GeoHashInt64_loop in HT.
    change (Z.to_nat 2) with 2%nat in HT.
    destruct (GeoHashInt64_pair p1 p2 _ _ (0 + Z.of_nat 2) Hlat Hlng HT
                (Z.to_nat (n - 2)))
      as (R1 & R2 & H1 & H2 & HR0 & HR12 & HR2 & _).
    rewrite H1, H2. apply s64_block_mono; lia.
Qed.

Lemma GeoHashInt64_monotone_witness :
  (f64_eq (Lat east10) (Lat east100) = true
   /\ same_hemisphere east10 east100
   /\ f64_le (Lng east10) (Lng east100) = true)
  /\ GeoHashInt64 east10 65 <= GeoHashInt64 east100 65.
Proof.
  split; [repeat split; reflexivity|].
  apply (GeoHashInt64_monotone east10 east100 65).
  - lia.
  - reflexivity.
  - reflexivity.
  - reflexivity.
Defined.

(** ** Levels and bit counts outside the supported range *)

(** From 32 iterations on, the loop of [Quadkey] changes nothing: the bits
    it would place lie beyond bit 63. *)
Lemma Quadkey_iter_saturates x y n :
  (32 <= n)%nat ->
  for_up (Quadkey_step x y) 0 n 0 = for_up (Quadkey_step x y) 0 32 0.
Proof.
  intros Hn. apply Z.bits_inj'. intros k Hk.
  rewrite !testbit_Quadkey_iter by assumption.
  destruct (Z.ltb_spec k 64) as [Hlt|Hge]; [|reflexivity].
  replace (k / 2 <? Z.of_nat n) with true
    by (symmetry; apply Z.ltb_lt; Z.div_mod_to_equations; lia).
  replace (k / 2 <? Z.of_nat 32) with true
    by (symmetry; apply Z.ltb_lt; Z.div_mod_to_equations; lia).
  reflexivity.
Qed.

Lemma Quadkey_loop_saturates x y L :
  - 2 ^ 63 <= L < 2 ^ 63 -> L < 0 \/ 31 < L ->
  Quadkey_loop x y L = Quadkey_loop x y 32.
Proof.
  intros HL Hout. unfold Quadkey_loop.
  rewrite (Quadkey_iter_saturates x y (Z.to_nat (u64 L))).
  - reflexivity.
  - assert (32 <= u64 L); [|lia].
    unfold u64. destruct Hout as [Hneg|Hbig].
    + replace (L mod 2 ^ 64) with (L + 2 ^ 64); [lia|].
      apply Z.mod_unique with (q := -1); lia.
    + rewrite Z.mod_small; lia.
Qed.

(** C7, counterexample: a negative bit count gives 0 and a bit count of 70
    a 64-bit remnant; a level of 40 gives a negative key. *)
Lemma encoders_return_out_of_range :
  GeoHashInt64 origin (-1) = 0
  /\ GeoHashInt64 east100 70 = 6527309441466456725
  /\ Quadkey (project_const (2 ^ 40 - 1) (2 ^ 40 - 1)) origin 40 = -1.
Proof. vm_compute. repeat split; reflexivity. Qed.

(** C7, amended. The encoders have no failure: outside the supported range
    they return an [int64].  [GeoHashInt64] gives 0 for a negative bit count
    and, for more than 64 bits, the value of the emitted bits wrapped to 64
    bits; [Quadkey], for a level below 0 or above 31, gives the interleaving
    of the low 32 bits of the projected [x] and [y], read as a signed
    integer. *)
Theorem encoders_out_of_range
    (project : float64 -> float64 -> Z -> Z * Z) (p : Point) :
  (forall n, n < 0 -> GeoHashInt64 p n = 0)
  /\ (forall n, 64 < n ->
        GeoHashInt64 p n = s64 (bits_value (bisection_bits p (Z.to_nat n))))
  /\ (forall L, - 2 ^ 63 <= L < 2 ^ 63 -> L < 0 \/ 31 < L ->
        Quadkey project p L
        = s64 (Quadkey_loop (u64 (fst (project (Lng p) (Lat p) (u64 L))))
                            (u64 (snd (project (Lng p) (Lat p) (u64 L)))) 32)).
Proof.
  split; [|split].
  - intros n Hn. unfold GeoHashInt64, GeoHashInt64_loop.
    replace (Z.to_nat n) with O by lia. reflexivity.
  - intros n _. apply GeoHashInt64_s64_bits_value.
  - intros L HL Hout. unfold Quadkey.
    destruct (project (Lng p) (Lat p) (u64 L)) as [x y]. cbn [fst snd].
    now rewrite Quadkey_loop_saturates.
Qed.

Lemma encoders_out_of_range_witness :
  GeoHashInt64 origin (-1) = 0
  /\ GeoHashInt64 east100 70
     = s64 (bits_value (bisection_bits east100 (Z.to_nat 70)))
  /\ Quadkey (project_const 5 3) origin (-1)
     = s64 (Quadkey_loop
              (u64 (fst (project_const 5 3 (Lng origin) (Lat origin) (u64 (-1)))))
              (u64 (snd (project_const 5 3 (Lng origin) (Lat origin) (u64 (-1)))))
              32).
Proof.
  split; [|split].
  - apply (proj1 (encoders_out_of_range (project_const 5 3) origin)). lia.
  - apply (proj1 (proj2 (encoders_out_of_range (project_const 5 3) east100))). lia.
  - apply (proj2 (proj2 (encoders_out_of_range (project_const 5 3) origin))); lia.
Defined.

(** ** Parsing a quadkey string *)

(** A byte that [ParseUint] reads as a digit below 4 is one of 0, 1, 2, 3. *)
Lemma digit_val_base4 c d :
  digit_val c = Some d -> d < 4 -> is_base4_digit c = true.
Proof.
  destruct c as [b0 b1 b2 b3 b4 b5 b6 b7].
  destruct b0, b1, b2, b3, b4, b5, b6, b7; vm_compute;
    intros H; inversion H; subst; try reflexivity; intros Hd; discriminate Hd.
Qed.

Lemma base4_digit_val c :
  is_base4_digit c = true -> exists d, digit_val c = Some d /\ 0 <= d < 4.
Proof.
  destruct c as [b0 b1 b2 b3 b4 b5 b6 b7].
  destruct b0, b1, b2, b3, b4, b5, b6, b7; vm_compute;
    intros H; try discriminate H; eexists; (split; [reflexivity|]);
    split; congruence.
Qed.

(** On a string of at most [32] bytes that holds a byte other than 0-3, the
    digit loop stops with a syntax error and the value 0. *)
Lemma ParseUint4_loop_syntax s :
  forall n,
    all_base4_digits s = false ->
    0 <= n < 4 ^ (32 - len s) ->
    ParseUint4_loop s n = (0, Some ErrSyntax).
Proof.
  induction s as [|c s IH]; intros n Hs Hn; [discriminate Hs|].
  cbn [all_base4_digits] in Hs. cbn [ParseUint4_loop].
  assert (Hlen : len (String c s) = len s + 1) by (unfold len; cbn [String.length]; lia).
  rewrite Hlen in Hn.
  destruct (Z.ltb_spec (31 - len s) 0) as [Hneg|Hpos].
  { rewrite Z.pow_neg_r in Hn by lia. lia. }
  assert (H62 : 4 ^ (32 - (len s + 1)) <= 2 ^ 62).
  { change (2 ^ 62) with (4 ^ 31). apply Z.pow_le_mono_r; unfold len; lia. }
  destruct (digit_val c) as [d|] eqn:Hd; [|reflexivity].
  destruct (Z.leb_spec 4 d) as [Hbig|Hsmall]; [reflexivity|].
  destruct (Z.leb_spec (2 ^ 62) n); [lia|].
  pose proof (digit_val_base4 c d Hd Hsmall) as Hc. rewrite Hc in Hs.
  destruct (base4_digit_val c Hc) as (d' & Hd' & Hr).
  assert (d' = d) by congruence. subst d'.
  assert (Hpow : 4 ^ (32 - len s) = 4 * 4 ^ (32 - (len s + 1))).
  { replace (32 - len s) with (Z.succ (32 - (len s + 1))) by lia.
    rewrite Z.pow_succ_r by lia. reflexivity. }
  rewrite (u64_small (n * 4)) by lia.
  rewrite (u64_small (n * 4 + d)) by lia.
  destruct (Z.ltb_spec (n * 4 + d) (n * 4)); [lia|].
  apply IH; [exact Hs|]. rewrite Hpow. lia.
Qed.

Lemma ParseUint4_syntax s :
  base4_digits s = false -> len s <= 32 ->
  ParseUint4 s = (0, Some ErrSyntax).
Proof.
  intros Hs Hlen. destruct s as [|c s]; [reflexivity|].
  unfold ParseUint4. apply ParseUint4_loop_syntax; [exact Hs|].
  split; [lia|]. apply Z.pow_pos_nonneg; lia.
Qed.

(** [ParseInt] rejects what is not a base-4 numeral, with the value 0. *)
Lemma ParseInt4_syntax s :
  base4_numeral s = false -> len s <= 32 ->
  ParseInt4 s = (0, Some ErrSyntax).
Proof.
  intros Hs Hlen. destruct s as [|c s]; [reflexivity|].
  assert (Hl : len (String c s) = len s + 1) by (unfold len; cbn [String.length]; lia).
  unfold ParseInt4. cbn [base4_numeral] in Hs.
  destruct (Ascii.eqb c "+") eqn:Eplus; cbn [orb] in Hs.
  - rewrite ParseUint4_syntax; [reflexivity|exact Hs|lia].
  - destruct (Ascii.eqb c "-") eqn:Eminus.
    + rewrite ParseUint4_syntax; [reflexivity|exact Hs|lia].
    + rewrite ParseUint4_syntax; [reflexivity|exact Hs|lia].
Qed.

(** Whenever [ParseInt] reports a syntax error, its value is 0. *)
Lemma ParseInt4_syntax_value s :
  snd (ParseInt4 s) = Some ErrSyntax -> fst (ParseInt4 s) = 0.
Proof.
  destruct s as [|c s]; [reflexivity|]. unfold ParseInt4.
  destruct (if Ascii.eqb c "+" then (false, s)
            else if Ascii.eqb c "-" then (true, s) else (false, String c s))
    as [neg digits].
  destruct (ParseUint4 digits) as [un [[]|]]; cbn [fst snd];
    try reflexivity;
    destruct (negb neg && (2 ^ 63 <=? un)); cbn [fst snd]; try discriminate;
    destruct (neg && (2 ^ 63 <? un)); cbn [fst snd]; discriminate.
Qed.

(** C6, counterexample: the string [12a] is no base-4 numeral, yet decoding
    it gives the point of key 0 at level 3. *)
Lemma NewPointFromQuadkeyString_12a :
  base4_numeral "12a" = false
  /\ ParseInt4 "12a" = (0, Some ErrSyntax)
  /\ forall inverse : Z -> Z -> Z -> float64 * float64,
       NewPointFromQuadkeyString inverse "12a" = NewPointFromQuadkey inverse 0 3.
Proof. repeat split. Qed.

(** C6, amended. For every string that is not a well-formed base-4 numeral,
    [NewPointFromQuadkeyString] reports nothing: it decodes, at the level
    given by the length of the string, the value [ParseInt] returns next to
    the error it discards; for a string of at most 32 bytes the error is a
    syntax error and the value is the default key 0. *)
Theorem NewPointFromQuadkeyString_malformed
    (inverse : Z -> Z -> Z -> float64 * float64) (s : string) :
  base4_numeral s = false ->
  NewPointFromQuadkeyString inverse s
  = NewPointFromQuadkey inverse (fst (ParseInt4 s)) (len s)
  /\ (snd (ParseInt4 s) = Some ErrSyntax ->
      NewPointFromQuadkeyString inverse s = NewPointFromQuadkey inverse 0 (len s))
  /\ (len s <= 32 -> snd (ParseInt4 s) = Some ErrSyntax).
Proof.
  intros Hs. split; [reflexivity|]. split.
  - intros E. unfold NewPointFromQuadkeyString.
    now rewrite (ParseInt4_syntax_value s E).
  - intros Hlen. now rewrite (ParseInt4_syntax s Hs Hlen).
Qed.

Lemma NewPointFromQuadkeyString_malformed_witness :
  (forall inverse : Z -> Z -> Z -> float64 * float64,
     NewPointFromQuadkeyString inverse "0x21"
     = NewPointFromQuadkey inverse 0 (len "0x21"))
  /\ snd (ParseInt4 "0x21") = Some ErrSyntax.
Proof.
  split.
  - intros inverse.
    apply (proj1 (proj2 (NewPointFromQuadkeyString_malformed inverse "0x21" eq_refl))).
    reflexivity.
  - apply (proj2 (proj2 (NewPointFromQuadkeyString_malformed
                           (fun _ _ _ => origin) "0x21" eq_refl))).
    vm_compute. discriminate.
Defined.

(** ** The string form of a quadkey *)

Lemma len_append (s1 s2 : string) : len (s1 ++ s2) = len s1 + len s2.
Proof.
  unfold len. induction s1 as [|c s1 IH]; [reflexivity|].
  cbn [String.append String.length]. lia.
Qed.

(** The number of base-4 digits of a positive number. *)
Lemma pos_base4_bounds p :
  let d := len (pos_base4 p) in
  1 <= d /\ 4 ^ (d - 1) <= Z.pos p < 4 ^ d.
Proof.
  cbv zeta.
  assert (Hstep : forall q (c : string),
            String.length c = 1%nat ->
            forall r, 0 <= r < 4 ->
            (1 <= len (pos_base4 q)
             /\ 4 ^ (len (pos_base4 q) - 1) <= Z.pos q < 4 ^ len (pos_base4 q)) ->
            1 <= len (pos_base4 q ++ c)
            /\ 4 ^ (len (pos_base4 q ++ c) - 1) <= 4 * Z.pos q + r
               < 4 ^ len (pos_base4 q ++ c)).
  { intros q c Hc r Hr [H1 H2].
    assert (E : len (pos_base4 q ++ c) = Z.succ (len (pos_base4 q))).
    { rewrite len_append. unfold len at 2. rewrite Hc. lia. }
    rewrite E. replace (Z.succ (len (pos_base4 q)) - 1)
      with (Z.succ (len (pos_base4 q) - 1)) by lia.
    rewrite !Z.pow_succ_r by lia. lia. }
  assert (H : (1 <= len (pos_base4 p)
               /\ 4 ^ (len (pos_base4 p) - 1) <= Z.pos p < 4 ^ len (pos_base4 p))
              /\ (1 <= len (pos_base4 p~0)
                  /\ 4 ^ (len (pos_base4 p~0) - 1) <= Z.pos p~0
                     < 4 ^ len (pos_base4 p~0))
              /\ (1 <= len (pos_base4 p~1)
                  /\ 4 ^ (len (pos_base4 p~1) - 1) <= Z.pos p~1
                     < 4 ^ len (pos_base4 p~1))).
  { induction p as [p IH|p IH|].
    - destruct IH as (Hp & Hp0 & Hp1). split; [exact Hp1|]. split.
      + cbn [pos_base4].
        replace (Z.pos p~1~0) with (4 * Z.pos p + 2) by lia.
        apply Hstep; [reflexivity|lia|exact Hp].
      + cbn [pos_base4].
        replace (Z.pos p~1~1) with (4 * Z.pos p + 3) by lia.
        apply Hstep; [reflexivity|lia|exact Hp].
    - destruct IH as (Hp & Hp0 & Hp1). split; [exact Hp0|]. split.
      + cbn [pos_base4].
        replace (Z.pos p~0~0) with (4 * Z.pos p + 0) by lia.
        apply Hstep; [reflexivity|lia|exact Hp].
      + cbn [pos_base4].
        replace (Z.pos p~0~1) with (4 * Z.pos p + 1) by lia.
        apply Hstep; [reflexivity|lia|exact Hp].
    - vm_compute. repeat split; discriminate. }
  apply H.
Qed.

Lemma len_FormatInt4 key :
  0 <= key ->
  1 <= len (FormatInt4 key)
  /\ (key = 0 -> len (FormatInt4 key) = 1)
  /\ (0 < key -> 4 ^ (len (FormatInt4 key) - 1) <= key < 4 ^ len (FormatInt4 key)).
Proof.
  intros Hk. destruct key as [|q|q]; [| |lia].
  - cbn. repeat split; lia.
  - cbn [FormatInt4]. pose proof (pos_base4_bounds q) as H. cbv zeta in H.
    repeat split; try lia; apply H.
Qed.

Lemma pow4_lt_inv a b : 0 <= b -> 4 ^ a < 4 ^ b -> a < b.
Proof. intros Hb H. apply (Z.pow_lt_mono_r_iff 4); [lia|exact Hb|exact H]. Qed.

(** Slicing the padding constant. *)
Lemma slice_to_zeros n :
  0 <= n <= 30 -> exists pad, slice_to zeros n = Some pad /\ len pad = n.
Proof.
  intros Hn. unfold slice_to.
  change (len zeros) with 30.
  destruct (Z.leb_spec 0 n); [|lia]. destruct (Z.leb_spec n 30); [|lia].
  cbn [andb]. eexists. split; [reflexivity|].
  assert (Hm : (Z.to_nat n <= 30)%nat) by lia.
  rewrite <- (Z2Nat.id n) at 2 by lia.
  generalize dependent (Z.to_nat n). intros m Hm.
  do 31 (destruct m as [|m]; [reflexivity|]). lia.
Qed.

(** The string form of a quadkey at a supported level: the padding rule of
    the code, and when the padded string has [L] characters. *)
Lemma QuadkeyString_padding
    (project : float64 -> float64 -> Z -> Z * Z) (p : Point) (L : Z) :
  0 <= L <= 31 ->
  exists pad,
    QuadkeyString project p L
    = Some (pad ++ FormatInt4 (Quadkey project p L))%string
    /\ len pad = (L + 1 - len (FormatInt4 (Quadkey project p L))) / 2
    /\ 1 <= len (FormatInt4 (Quadkey project p L))
    /\ (L = 0 -> len (FormatInt4 (Quadkey project p L)) = 1)
    /\ (1 <= L -> len (FormatInt4 (Quadkey project p L)) <= L)
    /\ (3 <= L -> Quadkey project p L < 4 ^ (L - 2) ->
        len (FormatInt4 (Quadkey project p L)) <= L - 2)
    /\ (3 <= L -> 4 ^ (L - 2) <= Quadkey project p L ->
        L - 1 <= len (FormatInt4 (Quadkey project p L))).
Proof.
  intros HL.
  destruct (Quadkey_in_range project p L HL) as [Hk0 Hk1].
  unfold QuadkeyString.
  set (key := Quadkey project p L) in *. clearbody key.
  destruct (len_FormatInt4 key Hk0) as (Hd1 & Hd0 & Hdpos).
  set (d := len (FormatInt4 key)) in *.
  assert (HdL0 : L = 0 -> d = 1).
  { intros ->. apply Hd0. change (4 ^ 0) with 1 in Hk1. lia. }
  assert (HdL : 1 <= L -> d <= L).
  { intros H1. destruct (Z.eq_dec key 0) as [E|NE]; [rewrite (Hd0 E); lia|].
    destruct (Hdpos ltac:(lia)) as [Hlo _].
    assert (d - 1 < L) by (apply pow4_lt_inv; lia). lia. }
  assert (Hshort : 3 <= L -> key < 4 ^ (L - 2) -> d <= L - 2).
  { intros H3 Hlt. destruct (Z.eq_dec key 0) as [E|NE]; [rewrite (Hd0 E); lia|].
    destruct (Hdpos ltac:(lia)) as [Hlo _].
    assert (d - 1 < L - 2) by (apply pow4_lt_inv; lia). lia. }
  assert (Hlong : 3 <= L -> 4 ^ (L - 2) <= key -> L - 1 <= d).
  { intros H3 Hge.
    assert (0 < 4 ^ (L - 2)) by (apply Z.pow_pos_nonneg; lia).
    destruct (Hdpos ltac:(lia)) as [_ Hhi].
    assert (L - 2 < d) by (apply pow4_lt_inv; lia). lia. }
  assert (Hdiff : 0 <= L + 1 - d <= 32).
  { destruct (Z.eq_dec L 0) as [E|NE]; [rewrite (HdL0 E); lia|].
    specialize (HdL ltac:(lia)). lia. }
  rewrite (s64_small (L + 1)) by lia.
  rewrite (s64_small (L + 1 - d)) by lia.
  rewrite Z.quot_div_nonneg by lia.
  destruct (slice_to_zeros ((L + 1 - d) / 2)) as (pad & Hpad & Hlen).
  { Z.div_mod_to_equations. lia. }
  exists pad. rewrite Hpad. repeat split; assumption.
Qed.

(** C1. At a supported level [L] the string form is the base-4 form of the
    key behind [((L + 1) - digits) / 2] zeros, as the padding rule says.
    Its length is [L] whenever the key has at least [L - 1] digits.  It is
    not always [L]: a key with two or more leading zero digits ([3 <= L],
    [key < 4^(L-2)]) gives a string shorter than [L], and level 0 gives a
    string of one character. *)
Theorem QuadkeyString_length
    (project : float64 -> float64 -> Z -> Z * Z) (p : Point) (L : Z) :
  0 <= L <= 31 ->
  exists pad,
    QuadkeyString project p L
    = Some (pad ++ FormatInt4 (Quadkey project p L))%string
    /\ len pad = (L + 1 - len (FormatInt4 (Quadkey project p L))) / 2
    /\ (L = 0 -> len (pad ++ FormatInt4 (Quadkey project p L)) = 1)
    /\ (3 <= L -> Quadkey project p L < 4 ^ (L - 2) ->
        len (pad ++ FormatInt4 (Quadkey project p L)) < L)
    /\ (1 <= L -> L <= 2 \/ 4 ^ (L - 2) <= Quadkey project p L ->
        len (pad ++ FormatInt4 (Quadkey project p L)) = L).
Proof.
  intros HL.
  destruct (QuadkeyString_padding project p L HL)
    as (pad & Hs & Hpad & Hd1 & H0 & H1 & Hshort & Hlong).
  exists pad. rewrite len_append, Hpad.
  set (d := len (FormatInt4 (Quadkey project p L))) in *.
  split; [exact Hs|]. split; [reflexivity|].
  split; [|split].
  - intros ->. rewrite (H0 eq_refl). reflexivity.
  - intros H3 Hlt. specialize (Hshort H3 Hlt).
    Z.div_mod_to_equations. lia.
  - intros HL1 Hcase. specialize (H1 HL1).
    assert (Hge : L - 1 <= d).
    { destruct (Z.le_gt_cases 3 L) as [H3|H3]; [|lia].
      destruct Hcase as [Hsmall|Hbig]; [lia|]. now apply Hlong. }
    Z.div_mod_to_equations. lia.
Qed.

Lemma QuadkeyString_length_witness :
  exists pad,
    QuadkeyString (project_const 0 0) origin 3
    = Some (pad ++ FormatInt4 (Quadkey (project_const 0 0) origin 3))%string
    /\ len (pad ++ FormatInt4 (Quadkey (project_const 0 0) origin 3)) < 3.
Proof.
  destruct (QuadkeyString_length (project_const 0 0) origin 3 ltac:(lia))
    as (pad & Hs & _ & _ & Hshort & _).
  exists pad. split; [exact Hs|]. apply Hshort; [lia|reflexivity].
Defined.

(** The north-west corner cell at level 3: two characters, not three. *)
Example QuadkeyString_cell_0_0_level_3 :
  QuadkeyString (project_const 0 0) origin 3 = Some "00"%string.
Proof. reflexivity. Qed.

(** The vector of the package's tests, from its grid cell at level 15. *)
Example QuadkeyString_test_vector :
  Quadkey (project_const 8405 12182) origin 15 = 212521785
  /\ QuadkeyString (project_const 8405 12182) origin 15
     = Some "030222231030321"%string.
Proof. vm_compute. split; reflexivity. Qed.

(* ------------------------------------------------------------------ *)
(** * Further properties of the codecs *)

(** ** [GeoHashInt64]: range and prefixes *)

Lemma bits_value_app l1 l2 :
  bits_value (l1 ++ l2)
  = bits_value l1 * 2 ^ Z.of_nat (List.length l2) + bits_value l2.
Proof.
  induction l2 as [|b l2 IH] using rev_ind.
  - rewrite app_nil_r. cbn. lia.
  - rewrite app_assoc, !bits_value_snoc, IH, length_app. cbn [List.length].
    replace (Z.of_nat (List.length l2 + 1)) with (Z.succ (Z.of_nat (List.length l2))) by lia.
    rewrite Z.pow_succ_r by lia. ring.
Qed.

(** The bits of a shorter run are the first bits of a longer one. *)
Lemma bisection_bits_extend p n k :
  exists more,
    bisection_bits p (n + k) = bisection_bits p n ++ more
    /\ List.length more = k.
Proof.
  induction k as [|k IH].
  - exists []. rewrite Nat.add_0_r, app_nil_r. split; reflexivity.
  - destruct IH as (more & E & Hlen).
    rewrite Nat.add_succ_r. unfold bisection_bits in *. cbn [bisection].
    destruct (bisection p (n + k)) as [[bits lng] lat]. cbn [fst] in E.
    destruct (Nat.even (n + k));
      [destruct (bisect (Lng p) lng) as [b iv]
      |destruct (bisect (Lat p) lat) as [b iv]];
      cbn [fst]; exists (more ++ [b]);
      rewrite E, <- app_assoc, length_app, Hlen; cbn; split; (reflexivity || lia).
Qed.

(** X5. for a bit count in [[0, 63]] the hash lies in [[0, 2^n)]. *)
Theorem GeoHashInt64_range (p : Point) (n : Z) :
  0 <= n <= 63 -> 0 <= GeoHashInt64 p n < 2 ^ n.
Proof.
  intros Hn. rewrite GeoHashInt64_bits_value by lia.
  pose proof (bits_value_range (bisection_bits p (Z.to_nat n))) as R.
  rewrite length_bisection_bits, Z2Nat.id in R by lia. exact R.
Qed.

Lemma GeoHashInt64_range_witness :
  0 <= GeoHashInt64 aalborg 40 < 2 ^ 40.
Proof. apply (GeoHashInt64_range aalborg 40). lia. Defined.

Lemma GeoHashInt64_prefix_bits (p : Point) (n m : Z) :
  0 <= n <= m -> m <= 63 ->
  Z.shiftr (GeoHashInt64 p m) (m - n) = GeoHashInt64 p n.
Proof.
  intros Hn Hm. rewrite !GeoHashInt64_bits_value by lia.
  destruct (bisection_bits_extend p (Z.to_nat n) (Z.to_nat (m - n)))
    as (more & E & Hlen).
  replace (Z.to_nat n + Z.to_nat (m - n))%nat with (Z.to_nat m) in E by lia.
  rewrite E, bits_value_app, Hlen, Z2Nat.id by lia.
  rewrite Z.shiftr_div_pow2 by lia.
  pose proof (bits_value_range more) as R. rewrite Hlen, Z2Nat.id in R by lia.
  rewrite Z.div_add_l by lia. rewrite Z.div_small by lia. lia.
Qed.

(** X6. dropping precision is a shift: for [0 <= n <= m <= 63] the hash of
    [n] bits is the hash of [m] bits shifted right by [m - n]. *)
Theorem GeoHashInt64_prefix (p : Point) (n m : Z) :
  0 <= n <= m -> m <= 63 ->
  Z.shiftr (GeoHashInt64 p m) (m - n) = GeoHashInt64 p n.
Proof. apply GeoHashInt64_prefix_bits. Qed.

Lemma GeoHashInt64_prefix_witness :
  Z.shiftr (GeoHashInt64 aalborg 40) (40 - 5) = GeoHashInt64 aalborg 5.
Proof. apply (GeoHashInt64_prefix aalborg 5 40); lia. Defined.

(** ** [GeoHash]: prefixes and alphabet *)

Lemma string_of_list_ascii_app l1 l2 :
  string_of_list_ascii (l1 ++ l2)
  = (string_of_list_ascii l1 ++ string_of_list_ascii l2)%string.
Proof.
  induction l1 as [|a l1 IH]; [reflexivity|]. cbn. now rewrite IH.
Qed.

(** The first [k] characters only depend on the bits above the last [5 j]. *)
Lemma base32_string_add k j :
  forall acc,
    base32_string (k + j) acc
    = base32_string k (Z.shiftr acc (5 * Z.of_nat j)) ++ base32_string j acc.
Proof.
  induction j as [|j IH]; intros acc.
  - rewrite Nat.add_0_r, Z.shiftr_0_r, app_nil_r. reflexivity.
  - rewrite Nat.add_succ_r. cbn [base32_string].
    rewrite IH, Z.shiftr_shiftr, <- app_assoc by lia.
    replace (5 + 5 * Z.of_nat j) with (5 * Z.of_nat (Datatypes.S j)) by lia.
    reflexivity.
Qed.

(** X11. geohashes are hierarchical up to twelve characters: for
    [0 <= c <= c' <= 12] the hash of precision [c] is the hash of precision
    [c'] cut to its first [c] characters. *)
Theorem GeoHash_prefix (p : Point) (c c' : Z) :
  0 <= c <= c' -> c' <= 12 ->
  exists s t,
    GeoHash p [c] = Some s
    /\ GeoHash p [c'] = Some (s ++ t)%string
    /\ len s = c /\ len t = c' - c.
Proof.
  intros Hc Hc'. rewrite !GeoHash_in_range by lia.
  exists (string_of_list_ascii (base32_string (Z.to_nat c) (GeoHashInt64 p (5 * c)))),
         (string_of_list_ascii
            (base32_string (Z.to_nat (c' - c)) (GeoHashInt64 p (5 * c')))).
  split; [reflexivity|]. split.
  - rewrite <- string_of_list_ascii_app. do 2 f_equal.
    replace (Z.to_nat c') with (Z.to_nat c + Z.to_nat (c' - c))%nat by lia.
    rewrite base32_string_add. f_equal. f_equal.
    rewrite Z2Nat.id by lia.
    replace (5 * (c' - c)) with (5 * c' - 5 * c) by lia.
    apply GeoHashInt64_prefix_bits; lia.
  - rewrite !len_base32_string. lia.
Qed.

Lemma GeoHash_prefix_witness :
  exists s t,
    GeoHash aalborg [8] = Some s
    /\ GeoHash aalborg [12] = Some (s ++ t)%string
    /\ len s = 8 /\ len t = 12 - 8.
Proof. apply (GeoHash_prefix aalborg 8 12); lia. Defined.


(** Beyond twelve characters the 64 bits of the accumulator are exceeded and
    the first characters change. *)
Example GeoHash_adelaide_13 :
  GeoHash adelaide [12] = Some "r1fd0qzmgh48"%string
  /\ GeoHash adelaide [13] = Some "71fd0qzmgh48v"%string.
Proof. vm_compute. split; reflexivity. Qed.

Lemma base32_string_alphabet n :
  forall acc,
    Forall (fun ch => In ch (list_ascii_of_string base32)) (base32_string n acc).
Proof.
  induction n as [|n IH]; intros acc; [constructor|].
  cbn [base32_string]. apply Forall_app. split; [apply IH|].
  constructor; [|constructor].
  unfold base32_char. apply nth_In.
  pose proof (land_31_range acc).
  change (List.length (list_ascii_of_string base32)) with 32%nat. lia.
Qed.

(** X12. every character of a geohash belongs to the alphabet. *)
Theorem GeoHash_alphabet (p : Point) (c : Z) (s : string) :
  GeoHash p [c] = Some s ->
  Forall (fun ch => In ch (list_ascii_of_string base32)) (list_ascii_of_string s).
Proof.
  intros H.
  destruct (Z_le_dec 0 c) as [H0|H0];
    [|rewrite GeoHash_out_of_range in H by lia; discriminate].
  destruct (Z_le_dec c 15) as [H15|H15];
    [|rewrite GeoHash_out_of_range in H by lia; discriminate].
  rewrite GeoHash_in_range in H by lia. injection H as <-.
  rewrite list_ascii_of_string_of_list_ascii.
  apply base32_string_alphabet.
Qed.

Lemma GeoHash_alphabet_witness :
  Forall (fun ch => In ch (list_ascii_of_string base32))
         (list_ascii_of_string "u4phb4hw").
Proof. apply (GeoHash_alphabet aalborg 8). vm_compute. reflexivity. Defined.

(** ** [GeoHashInt64]: the cell of a hash *)

Lemma bits_value_inj l1 l2 :
  List.length l1 = List.length l2 -> bits_value l1 = bits_value l2 -> l1 = l2.
Proof.
  intros Hlen Hval. apply (nth_ext l1 l2 false false Hlen).
  intros i Hi.
  rewrite <- (testbit_bits_value l1 i Hi).
  rewrite <- (testbit_bits_value l2 i) by lia.
  now rewrite Hval, Hlen.
Qed.

(** The range a bisection leaves is fixed by the old range and the bit. *)
Lemma bisect_range coord iv :
  snd (bisect coord iv)
  = if fst (bisect coord iv)
    then (f64_mid (fst iv) (snd iv), snd iv)
    else (fst iv, f64_mid (fst iv) (snd iv)).
Proof.
  unfold bisect. destruct (f64_gt coord (f64_mid (fst iv) (snd iv))); reflexivity.
Qed.

Lemma bisection_same_bits p1 p2 n :
  bisection_bits p1 n = bisection_bits p2 n -> bisection p1 n = bisection p2 n.
Proof.
  unfold bisection_bits. induction n as [|n IH]; [reflexivity|].
  cbn [bisection].
  destruct (bisection p1 n) as [[bits1 lng1] lat1].
  destruct (bisection p2 n) as [[bits2 lng2] lat2].
  cbn [fst] in IH.
  destruct (Nat.even n).
  - pose proof (bisect_range (Lng p1) lng1) as R1.
    pose proof (bisect_range (Lng p2) lng2) as R2.
    destruct (bisect (Lng p1) lng1) as [b1 iv1].
    destruct (bisect (Lng p2) lng2) as [b2 iv2].
    cbn [fst snd] in *. intros E. apply app_inj_tail in E. destruct E as [E ->].
    specialize (IH E). injection IH as -> -> ->.
    now rewrite R1, R2.
  - pose proof (bisect_range (Lat p1) lat1) as R1.
    pose proof (bisect_range (Lat p2) lat2) as R2.
    destruct (bisect (Lat p1) lat1) as [b1 iv1].
    destruct (bisect (Lat p2) lat2) as [b2 iv2].
    cbn [fst snd] in *. intros E. apply app_inj_tail in E. destruct E as [E ->].
    specialize (IH E). injection IH as -> -> ->.
    now rewrite R1, R2.
Qed.

Lemma GeoHashInt64_loop_bounds p n :
  (lngMin (GeoHashInt64_loop p n), lngMax (GeoHashInt64_loop p n))
  = snd (fst (bisection p (Z.to_nat n)))
  /\ (latMin (GeoHashInt64_loop p n), latMax (GeoHashInt64_loop p n))
     = snd (bisection p (Z.to_nat n)).
Proof.
  unfold GeoHashInt64_loop.
  pose proof (GeoHashInt64_iter_bisection p (Z.to_nat n)) as H.
  cbv zeta in H. destruct (bisection p (Z.to_nat n)) as [[bits lng] lat].
  destruct H as [_ [Hlng Hlat]]. split; assumption.
Qed.

(** X8. up to 63 bits the hash determines the cell: two points with the same
    hash leave the loop with the same four bounds. *)
Theorem GeoHashInt64_same_cell (p1 p2 : Point) (n : Z) :
  n <= 63 ->
  GeoHashInt64 p1 n = GeoHashInt64 p2 n ->
  lngMin (GeoHashInt64_loop p1 n) = lngMin (GeoHashInt64_loop p2 n)
  /\ lngMax (GeoHashInt64_loop p1 n) = lngMax (GeoHashInt64_loop p2 n)
  /\ latMin (GeoHashInt64_loop p1 n) = latMin (GeoHashInt64_loop p2 n)
  /\ latMax (GeoHashInt64_loop p1 n) = latMax (GeoHashInt64_loop p2 n).
Proof.
  intros Hn E. rewrite !GeoHashInt64_bits_value in E by assumption.
  apply bits_value_inj in E; [|now rewrite !length_bisection_bits].
  apply bisection_same_bits in E.
  destruct (GeoHashInt64_loop_bounds p1 n) as [A1 A2].
  destruct (GeoHashInt64_loop_bounds p2 n) as [B1 B2].
  rewrite E in A1, A2. rewrite <- B1 in A1. rewrite <- B2 in A2.
  injection A1 as -> ->. injection A2 as -> ->.
  repeat split; reflexivity.
Qed.

Lemma GeoHashInt64_same_cell_witness :
  lngMin (GeoHashInt64_loop aalborg 3) = lngMin (GeoHashInt64_loop east10 3)
  /\ lngMax (GeoHashInt64_loop aalborg 3) = lngMax (GeoHashInt64_loop east10 3)
  /\ latMin (GeoHashInt64_loop aalborg 3) = latMin (GeoHashInt64_loop east10 3)
  /\ latMax (GeoHashInt64_loop aalborg 3) = latMax (GeoHashInt64_loop east10 3).
Proof.
  apply (GeoHashInt64_same_cell aalborg east10 3); [lia|].
  vm_compute. reflexivity.
Defined.

(** ** [GeoHashInt64]: the bounds bracket the point *)

Lemma f64_gt_le (a b : float64) : f64_gt a b = true -> f64_le b a = true.
Proof.
  unfold f64_gt, f64_le, SFltb, SFleb.
  destruct (SFcompare b a) as [[]|]; (reflexivity || discriminate).
Qed.

Lemma f64_le_not_gt (a b : float64) : f64_le a b = true -> f64_gt a b = false.
Proof.
  unfold f64_le, f64_gt, SFleb, SFltb.
  destruct a as [?|?| |? ? ?], b as [?|?| |? ? ?];
    cbn; try discriminate; try reflexivity;
    repeat match goal with s : bool |- _ => destruct s end;
    cbn; try discriminate; try reflexivity;
    float_order.
Qed.

(** X9. a point inside [[-180, 180] x [-90, 90]] stays inside the bounds of
    the loop, after any number of iterations: the lower bounds are at most
    its coordinates, and its coordinates do not exceed the upper bounds. *)
Theorem GeoHashInt64_bounds_bracket (p : Point) (n : Z) :
  f64_le (f64_of_Z (-180)) (Lng p) = true ->
  f64_le (Lng p) (f64_of_Z 180) = true ->
  f64_le (f64_of_Z (-90)) (Lat p) = true ->
  f64_le (Lat p) (f64_of_Z 90) = true ->
  f64_le (lngMin (GeoHashInt64_loop p n)) (Lng p) = true
  /\ f64_gt (Lng p) (lngMax (GeoHashInt64_loop p n)) = false
  /\ f64_le (latMin (GeoHashInt64_loop p n)) (Lat p) = true
  /\ f64_gt (Lat p) (latMax (GeoHashInt64_loop p n)) = false.
Proof.
  unfold Lng, Lat. intros Hw He Hs Hn. unfold GeoHashInt64_loop.
  induction (Z.to_nat n) as [|k IH].
  - cbn [for_up geoHashInit lngMin lngMax latMin latMax].
    repeat split; try assumption; now apply f64_le_not_gt.
  - rewrite for_up_snoc.
    set (st := for_up (GeoHashInt64_step p) 0 k geoHashInit) in *.
    destruct IH as (I1 & I2 & I3 & I4).
    destruct (Z.rem (0 + Z.of_nat k) 2 =? 0) eqn:Hi.
    + destruct (GeoHashInt64_step_lng p _ st Hi) as (_ & A2 & A3 & A4 & A5).
      rewrite A2, A3, A4, A5.
      destruct (f64_gt (fst p) (f64_mid (lngMin st) (lngMax st))) eqn:Hb;
        repeat split; try assumption. now apply f64_gt_le.
    + destruct (GeoHashInt64_step_lat p _ st Hi) as (_ & A2 & A3 & A4 & A5).
      rewrite A2, A3, A4, A5.
      destruct (f64_gt (snd p) (f64_mid (latMin st) (latMax st))) eqn:Hb;
        repeat split; try assumption. now apply f64_gt_le.
Qed.

Lemma GeoHashInt64_bounds_bracket_witness :
  f64_le (lngMin (GeoHashInt64_loop aalborg 40)) (Lng aalborg) = true
  /\ f64_gt (Lng aalborg) (lngMax (GeoHashInt64_loop aalborg 40)) = false
  /\ f64_le (latMin (GeoHashInt64_loop aalborg 40)) (Lat aalborg) = true
  /\ f64_gt (Lat aalborg) (latMax (GeoHashInt64_loop aalborg 40)) = false.
Proof.
  apply (GeoHashInt64_bounds_bracket aalborg 40); reflexivity.
Defined.

(** ** Points whose coordinates are not numbers *)

Lemma f64_gt_nan (m : float64) : f64_gt S754_nan m = false.
Proof. unfold f64_gt, SFltb. destruct m; reflexivity. Qed.

Lemma bisection_bits_nan p n :
  Lng p = S754_nan -> Lat p = S754_nan ->
  bisection_bits p n = repeat false n.
Proof.
  intros Hlng Hlat. unfold bisection_bits.
  induction n as [|n IH]; [reflexivity|].
  rewrite repeat_snoc. cbn [bisection].
  destruct (bisection p n) as [[bits lng] lat]. cbn [fst] in IH.
  unfold bisect. rewrite Hlng, Hlat, !f64_gt_nan.
  destruct (Nat.even n); cbn [fst]; now rewrite IH.
Qed.

Lemma bits_value_zeros n : bits_value (repeat false n) = 0.
Proof.
  induction n as [|n IH]; [reflexivity|].
  rewrite repeat_snoc, bits_value_snoc, IH. reflexivity.
Qed.

Lemma base32_string_zero k :
  base32_string k 0 = repeat "0"%char k.
Proof.
  induction k as [|k IH]; [reflexivity|].
  rewrite repeat_snoc. cbn [base32_string].
  rewrite Z.shiftr_0_l, IH. reflexivity.
Qed.

(** X10. a point whose two coordinates are NaN is not rejected: every
    comparison fails, every bit is 0, so its integer hash is 0 for every bit
    count and its geohash is a run of the character 0. *)
Theorem GeoHash_nan (p : Point) :
  Lng p = S754_nan -> Lat p = S754_nan ->
  (forall n, GeoHashInt64 p n = 0)
  /\ (forall c, 0 <= c <= 15 ->
        GeoHash p [c]
        = Some (string_of_list_ascii (repeat "0"%char (Z.to_nat c)))).
Proof.
  intros Hlng Hlat.
  assert (H0 : forall n, GeoHashInt64 p n = 0).
  { intros n. rewrite GeoHashInt64_s64_bits_value.
    now rewrite bisection_bits_nan, bits_value_zeros. }
  split; [exact H0|].
  intros c Hc. rewrite GeoHash_in_range by assumption.
  now rewrite H0, base32_string_zero.
Qed.

Lemma GeoHash_nan_witness :
  GeoHashInt64 nan_point 70 = 0
  /\ GeoHash nan_point [5] = Some "00000"%string.
Proof.
  split.
  - apply (proj1 (GeoHash_nan nan_point eq_refl eq_refl)).
  - apply (proj2 (GeoHash_nan nan_point eq_refl eq_refl) 5). lia.
Defined.

(** ** [Quadkey] and [NewPointFromQuadkey] together *)

(** X1. decoding the quadkey of a point at the same level [L] in [[0, 31]]
    hands the inverse projection the cell the projection gave, reduced to
    its low [L] bits; when the projection stays inside the grid of the
    level, that is the cell itself. *)
Theorem NewPointFromQuadkey_Quadkey
    (project : float64 -> float64 -> Z -> Z * Z)
    (inverse : Z -> Z -> Z -> float64 * float64) (p : Point) (L : Z) :
  0 <= L <= 31 ->
  NewPointFromQuadkey inverse (Quadkey project p L) L
  = inverse (fst (project (Lng p) (Lat p) L) mod 2 ^ L)
            (snd (project (Lng p) (Lat p) L) mod 2 ^ L) L
  /\ (0 <= fst (project (Lng p) (Lat p) L) < 2 ^ L ->
      0 <= snd (project (Lng p) (Lat p) L) < 2 ^ L ->
      NewPointFromQuadkey inverse (Quadkey project p L) L
      = inverse (fst (project (Lng p) (Lat p) L))
                (snd (project (Lng p) (Lat p) L)) L).
Proof.
  intros HL.
  assert (E : NewPointFromQuadkey inverse (Quadkey project p L) L
              = inverse (fst (project (Lng p) (Lat p) L) mod 2 ^ L)
                        (snd (project (Lng p) (Lat p) L) mod 2 ^ L) L).
  { unfold NewPointFromQuadkey, Quadkey. rewrite (u64_small L) by lia.
    destruct (project (Lng p) (Lat p) L) as [x y]. cbn [fst snd].
    rewrite s64_Quadkey_loop by assumption.
    rewrite Quadkey_loop_mask by lia. rewrite !u64_mod_pow2 by lia.
    assert (P : 0 < 2 ^ L) by (apply Z.pow_pos_nonneg; lia).
    assert (P64 : 2 ^ L <= 2 ^ 64) by (apply Z.pow_le_mono_r; lia).
    pose proof (Z.mod_pos_bound x (2 ^ L) P).
    pose proof (Z.mod_pos_bound y (2 ^ L) P).
    rewrite NewPointFromQuadkey_loop_Quadkey_loop by assumption.
    rewrite !u64_small by lia. reflexivity. }
  split; [exact E|].
  intros Hx Hy. rewrite E, !Z.mod_small by assumption. reflexivity.
Qed.

Lemma NewPointFromQuadkey_Quadkey_witness :
  NewPointFromQuadkey inverse_cell (Quadkey (project_const 8405 12182) origin 15) 15
  = inverse_cell 8405 12182 15.
Proof.
  apply (proj2 (NewPointFromQuadkey_Quadkey (project_const 8405 12182)
                  inverse_cell origin 15 ltac:(lia))); cbn; lia.
Defined.

(** X3. at a level [L] in [[0, 31]] only the low [2 L] bits of the key are
    read: a key and its remainder modulo [4^L] decode to the same point, so
    bits beyond the level, and the sign, are ignored. *)
Theorem NewPointFromQuadkey_low_bits
    (inverse : Z -> Z -> Z -> float64 * float64) (key L : Z) :
  0 <= L <= 31 ->
  NewPointFromQuadkey inverse key L
  = NewPointFromQuadkey inverse (key mod 4 ^ L) L.
Proof.
  intros HL. unfold NewPointFromQuadkey.
  assert (E : NewPointFromQuadkey_loop key L
              = NewPointFromQuadkey_loop (key mod 4 ^ L) L).
  { rewrite (surjective_pairing (NewPointFromQuadkey_loop key L)).
    rewrite (surjective_pairing (NewPointFromQuadkey_loop (key mod 4 ^ L) L)).
    rewrite pow4_pow2 by lia.
    f_equal; apply Z.bits_inj'; intros j Hj;
      destruct (testbit_NewPointFromQuadkey_loop key L j HL Hj) as [A1 A2];
      destruct (testbit_NewPointFromQuadkey_loop (key mod 2 ^ (2 * L)) L j HL Hj)
        as [B1 B2];
      rewrite ?A1, ?A2, ?B1, ?B2, !Z.testbit_mod_pow2 by lia;
      (destruct (Z.ltb_spec j L); [|reflexivity]);
      cbn [andb];
      [ replace (2 * j <? 2 * L) with true by (cmp_cases; lia)
      | replace (2 * j + 1 <? 2 * L) with true by (cmp_cases; lia) ];
      reflexivity. }
  now rewrite E.
Qed.

Lemma NewPointFromQuadkey_low_bits_witness :
  NewPointFromQuadkey inverse_cell (-1) 3 = NewPointFromQuadkey inverse_cell 63 3.
Proof.
  apply (NewPointFromQuadkey_low_bits inverse_cell (-1) 3). lia.
Defined.

(** ** The quadtree: parent tiles *)

Lemma Quadkey_loop_parent x y L :
  1 <= L <= 32 ->
  Quadkey_loop (Z.shiftr x 1) (Z.shiftr y 1) (L - 1)
  = Z.shiftr (Quadkey_loop x y L) 2.
Proof.
  intros HL. apply Z.bits_inj'. intros k Hk.
  rewrite Z.shiftr_spec by assumption.
  rewrite !testbit_Quadkey_loop by lia.
  replace ((k + 2) / 2) with (k / 2 + 1) by (Z.div_mod_to_equations; lia).
  replace (Z.even (k + 2)) with (Z.even k)
    by (replace (k + 2) with (k + 2 * 1) by lia; now rewrite Z.even_add_mul_2).
  assert (Hd : 0 <= k / 2) by (Z.div_mod_to_equations; lia).
  replace (k / 2 <? L - 1) with (k / 2 + 1 <? L) by (cmp_cases; lia).
  destruct (Z.ltb_spec (k / 2 + 1) L) as [Hlt|Hge];
    [|now rewrite !andb_false_r].
  assert (k + 2 < 64) by (Z.div_mod_to_equations; lia).
  replace (k <? 64) with true by (cmp_cases; lia).
  replace (k + 2 <? 64) with true by (cmp_cases; lia).
  cbn [andb]. destruct (Z.even k); now rewrite Z.shiftr_spec by assumption.
Qed.

(** X4. quadkeys nest: when the projection at level [L - 1] gives the cell of
    level [L] with both coordinates halved, the key at level [L - 1] is the
    key at level [L] without its last two bits (its last base-4 digit). *)
Theorem Quadkey_parent
    (project : float64 -> float64 -> Z -> Z * Z) (p : Point) (L : Z) :
  1 <= L <= 31 ->
  project (Lng p) (Lat p) (L - 1)
  = (Z.shiftr (fst (project (Lng p) (Lat p) L)) 1,
     Z.shiftr (snd (project (Lng p) (Lat p) L)) 1) ->
  0 <= fst (project (Lng p) (Lat p) L) < 2 ^ 64 ->
  0 <= snd (project (Lng p) (Lat p) L) < 2 ^ 64 ->
  Quadkey project p (L - 1) = Z.shiftr (Quadkey project p L) 2.
Proof.
  intros HL Hhalf Hx Hy. unfold Quadkey.
  rewrite (u64_small L), (u64_small (L - 1)) by lia. rewrite Hhalf.
  destruct (project (Lng p) (Lat p) L) as [x y]. cbn [fst snd] in *.
  rewrite !s64_Quadkey_loop by lia.
  rewrite (u64_small x), (u64_small y) by assumption.
  assert (Hs : forall a, 0 <= a < 2 ^ 64 -> u64 (Z.shiftr a 1) = Z.shiftr a 1).
  { intros a Ha. apply u64_small. rewrite Z.shiftr_div_pow2 by lia.
    change (2 ^ 1) with 2. Z.div_mod_to_equations. lia. }
  rewrite !Hs by assumption.
  apply Quadkey_loop_parent. lia.
Qed.

(** A projection that halves from level to level, from a cell of level 15. *)
Lemma Quadkey_parent_witness :
  Quadkey (fun _ _ l => (Z.shiftr 8405 (15 - l), Z.shiftr 12182 (15 - l)))
          origin (15 - 1)
  = Z.shiftr
      (Quadkey (fun _ _ l => (Z.shiftr 8405 (15 - l), Z.shiftr 12182 (15 - l)))
               origin 15) 2.
Proof.
  apply (Quadkey_parent
           (fun _ _ l => (Z.shiftr 8405 (15 - l), Z.shiftr 12182 (15 - l)))
           origin 15).
  - lia.
  - reflexivity.
  - cbn. lia.
  - cbn. lia.
Defined.

(** ** The string form and back *)

Lemma digits_value_ge s : forall n, 0 <= n -> n <= digits_value s n.
Proof.
  induction s as [|c s IH]; intros n Hn; [cbn; lia|].
  cbn [digits_value].
  assert (0 <= match digit_val c with Some d => d | None => 0 end).
  { unfold digit_val.
    destruct ((48 <=? Z.of_nat (nat_of_ascii c)) && (Z.of_nat (nat_of_ascii c) <=? 57)) eqn:E1.
    - apply andb_prop in E1. destruct E1 as [E1 _]. apply Z.leb_le in E1. lia.
    - destruct ((97 <=? Z.lor (Z.of_nat (nat_of_ascii c)) 32)
                && (Z.lor (Z.of_nat (nat_of_ascii c)) 32 <=? 122)) eqn:E2; [|lia].
      apply andb_prop in E2. destruct E2 as [E2 _]. apply Z.leb_le in E2. lia. }
  etransitivity; [|apply IH]; lia.
Qed.

(** On digits of base 4 that do not overflow, the digit loop returns their
    value and no error. *)
Lemma ParseUint4_loop_digits s :
  forall n,
    all_base4_digits s = true -> 0 <= n -> digits_value s n < 2 ^ 64 ->
    ParseUint4_loop s n = (digits_value s n, None).
Proof.
  induction s as [|c s IH]; intros n Hs Hn Hv; [reflexivity|].
  cbn [all_base4_digits] in Hs. apply andb_prop in Hs. destruct Hs as [Hc Hs].
  destruct (base4_digit_val c Hc) as (d & Hd & Hr).
  cbn [ParseUint4_loop digits_value] in *. rewrite Hd in *.
  pose proof (digits_value_ge s (4 * n + d) ltac:(lia)) as Hge.
  destruct (Z.leb_spec 4 d); [lia|].
  destruct (Z.leb_spec (2 ^ 62) n); [lia|].
  rewrite (u64_small (n * 4)) by lia.
  rewrite (u64_small (n * 4 + d)) by lia.
  destruct (Z.ltb_spec (n * 4 + d) (n * 4)); [lia|].
  replace (n * 4 + d) with (4 * n + d) by lia.
  apply IH; [assumption|lia|assumption].
Qed.

Lemma digits_value_app s1 s2 :
  forall n, digits_value (s1 ++ s2) n = digits_value s2 (digits_value s1 n).
Proof.
  induction s1 as [|c s1 IH]; intros n; [reflexivity|].
  cbn [String.append digits_value]. apply IH.
Qed.

Lemma all_base4_digits_app s1 s2 :
  all_base4_digits (s1 ++ s2) = all_base4_digits s1 && all_base4_digits s2.
Proof.
  induction s1 as [|c s1 IH]; [reflexivity|].
  cbn [String.append all_base4_digits]. now rewrite IH, andb_assoc.
Qed.

Ltac eval_digit :=
  intros; cbn [digits_value pos_base4];
  repeat match goal with
    | |- context [digit_val ?c] =>
        let v := eval vm_compute in (digit_val c) in change (digit_val c) with v
    | |- context [len ?c] =>
        let v := eval vm_compute in (len c) in change (len c) with v
    end;
  cbv iota; lia.

(** The digits [pos_base4] writes are digits of base 4, and they denote the
    number they were written from. *)
Lemma pos_base4_digits q :
  all_base4_digits (pos_base4 q) = true
  /\ forall n, digits_value (pos_base4 q) n
               = n * 4 ^ len (pos_base4 q) + Z.pos q.
Proof.
  assert (Hstep : forall r (c : string) (d : Z),
            all_base4_digits c = true -> len c = 1 ->
            (forall n, digits_value c n = 4 * n + d) ->
            (all_base4_digits (pos_base4 r) = true
             /\ forall n, digits_value (pos_base4 r) n
                          = n * 4 ^ len (pos_base4 r) + Z.pos r) ->
            all_base4_digits (pos_base4 r ++ c) = true
            /\ forall n, digits_value (pos_base4 r ++ c) n
                         = n * 4 ^ len (pos_base4 r ++ c) + (4 * Z.pos r + d)).
  { intros r c d Hc Hlen Hval [H1 H2]. split.
    - now rewrite all_base4_digits_app, H1, Hc.
    - intros n. rewrite digits_value_app, H2, Hval, len_append, Hlen.
      rewrite Z.pow_add_r by (unfold len; lia). change (4 ^ 1) with 4. ring. }
  assert (H : (all_base4_digits (pos_base4 q) = true
               /\ forall n, digits_value (pos_base4 q) n
                            = n * 4 ^ len (pos_base4 q) + Z.pos q)
              /\ (all_base4_digits (pos_base4 q~0) = true
                  /\ forall n, digits_value (pos_base4 q~0) n
                               = n * 4 ^ len (pos_base4 q~0) + Z.pos q~0)
              /\ (all_base4_digits (pos_base4 q~1) = true
                  /\ forall n, digits_value (pos_base4 q~1) n
                               = n * 4 ^ len (pos_base4 q~1) + Z.pos q~1)).
  { induction q as [q IH|q IH|].
    - destruct IH as (Hq & Hq0 & Hq1). split; [exact Hq1|]. split.
      + cbn [pos_base4].
        replace (Z.pos q~1~0) with (4 * Z.pos q + 2) by lia.
        apply Hstep; [reflexivity|reflexivity|eval_digit|exact Hq].
      + cbn [pos_base4].
        replace (Z.pos q~1~1) with (4 * Z.pos q + 3) by lia.
        apply Hstep; [reflexivity|reflexivity|eval_digit|exact Hq].
    - destruct IH as (Hq & Hq0 & Hq1). split; [exact Hq0|]. split.
      + cbn [pos_base4].
        replace (Z.pos q~0~0) with (4 * Z.pos q + 0) by lia.
        apply Hstep; [reflexivity|reflexivity|eval_digit|exact Hq].
      + cbn [pos_base4].
        replace (Z.pos q~0~1) with (4 * Z.pos q + 1) by lia.
        apply Hstep; [reflexivity|reflexivity|eval_digit|exact Hq].
    - repeat split; try reflexivity; eval_digit. }
  apply H.
Qed.

Lemma FormatInt4_digits key :
  0 <= key ->
  all_base4_digits (FormatInt4 key) = true
  /\ digits_value (FormatInt4 key) 0 = key
  /\ FormatInt4 key <> EmptyString.
Proof.
  intros Hk. destruct key as [|q|q]; [| |lia].
  - repeat split; discriminate.
  - cbn [FormatInt4]. destruct (pos_base4_digits q) as [H1 H2].
    split; [exact H1|]. split; [rewrite H2; lia|].
    intros E. pose proof (pos_base4_bounds q) as B. cbv zeta in B.
    rewrite E in B. cbn in B. lia.
Qed.

(** A prefix of the padding constant is made of zeros. *)
Lemma zeros_prefix_digits k :
  (k <= 30)%nat ->
  all_base4_digits (substring 0 k zeros) = true
  /\ forall n, digits_value (substring 0 k zeros) n = n * 4 ^ Z.of_nat k.
Proof.
  intros Hk.
  assert (E : substring 0 k zeros = string_of_list_ascii (repeat "0"%char k)).
  { do 31 (destruct k as [|k]; [reflexivity|]). lia. }
  rewrite E. clear. induction k as [|k IH]; [split; [reflexivity|intros; cbn; lia]|].
  destruct IH as [H1 H2]. cbn [repeat string_of_list_ascii all_base4_digits digits_value].
  split; [now rewrite H1|]. intros n.
  change (digit_val "0") with (Some 0). rewrite H2.
  rewrite Nat2Z.inj_succ, Z.pow_succ_r by lia. ring.
Qed.

Lemma base4_digit_not_sign c :
  is_base4_digit c = true -> Ascii.eqb c "+" = false /\ Ascii.eqb c "-" = false.
Proof.
  unfold is_base4_digit. intros H.
  repeat (apply orb_prop in H; destruct H as [H|H]);
    apply Ascii.eqb_eq in H; subst; split; reflexivity.
Qed.

(** [ParseInt] reads a non-empty string of base-4 digits below [2^63] as the
    number it denotes, without error. *)
Lemma ParseInt4_digits s :
  s <> EmptyString -> all_base4_digits s = true ->
  0 <= digits_value s 0 < 2 ^ 63 ->
  ParseInt4 s = (digits_value s 0, None).
Proof.
  intros Hne Hs Hv. destruct s as [|c s]; [congruence|].
  pose proof Hs as Hs'. cbn [all_base4_digits] in Hs'.
  apply andb_prop in Hs'. destruct Hs' as [Hc _].
  destruct (base4_digit_not_sign c Hc) as [Ep Em].
  unfold ParseInt4. rewrite Ep, Em.
  unfold ParseUint4. rewrite ParseUint4_loop_digits by (assumption || lia).
  destruct (Z.leb_spec (2 ^ 63) (digits_value (String c s) 0)); [lia|].
  cbn [negb andb]. now rewrite s64_small by lia.
Qed.

(** What [QuadkeyString] returns is a prefix of the padding constant
    followed by the base-4 form of the key. *)
Lemma QuadkeyString_shape
    (project : float64 -> float64 -> Z -> Z * Z) (p : Point) (L : Z) (s : string) :
  QuadkeyString project p L = Some s ->
  exists k, (k <= 30)%nat
            /\ s = (substring 0 k zeros ++ FormatInt4 (Quadkey project p L))%string.
Proof.
  unfold QuadkeyString, slice_to.
  set (n := Z.quot _ 2). change (len zeros) with 30.
  destruct (Z.leb_spec 0 n); [|discriminate].
  destruct (Z.leb_spec n 30); [|discriminate].
  cbn [andb]. intros E. injection E as <-.
  exists (Z.to_nat n). split; [lia|reflexivity].
Qed.

(** X2. at a level [L] in [[0, 31]] the string form always parses back to the
    key, without error, so [NewPointFromQuadkeyString] decodes the right key
    at the level given by the length of the string; that level is [L], and
    the round trip through the string is the round trip through the key,
    whenever the key has at least [L - 1] digits ([1 <= L <= 2] or
    [4^(L-2) <= key]). *)
Theorem NewPointFromQuadkeyString_QuadkeyString
    (project : float64 -> float64 -> Z -> Z * Z)
    (inverse : Z -> Z -> Z -> float64 * float64) (p : Point) (L : Z) :
  0 <= L <= 31 ->
  exists s,
    QuadkeyString project p L = Some s
    /\ base4_numeral s = true
    /\ ParseInt4 s = (Quadkey project p L, None)
    /\ NewPointFromQuadkeyString inverse s
       = NewPointFromQuadkey inverse (Quadkey project p L) (len s)
    /\ (1 <= L -> L <= 2 \/ 4 ^ (L - 2) <= Quadkey project p L ->
        NewPointFromQuadkeyString inverse s
        = NewPointFromQuadkey inverse (Quadkey project p L) L).
Proof.
  intros HL.
  destruct (QuadkeyString_padding project p L HL)
    as (pad & Hs & Hpad & Hd1 & H0 & H1 & Hshort & Hlong).
  destruct (QuadkeyString_shape project p L _ Hs) as (k & Hk & Eshape).
  destruct (Quadkey_in_range project p L HL) as [Hk0 Hk1].
  pose proof (pow4_31 L HL) as H62.
  set (key := Quadkey project p L) in *.
  destruct (FormatInt4_digits key Hk0) as (F1 & F2 & F3).
  destruct (zeros_prefix_digits k Hk) as (Z1 & Z2).
  assert (Hall : all_base4_digits (pad ++ FormatInt4 key) = true).
  { rewrite Eshape, all_base4_digits_app, Z1, F1. reflexivity. }
  assert (Hval : digits_value (pad ++ FormatInt4 key) 0 = key).
  { rewrite Eshape, digits_value_app, Z2. cbn [Z.mul]. exact F2. }
  assert (Hne : (pad ++ FormatInt4 key)%string <> EmptyString).
  { intros E. apply (f_equal len) in E. rewrite len_append in E.
    change (len "") with 0 in E. unfold len in E at 1. lia. }
  assert (Hparse : ParseInt4 (pad ++ FormatInt4 key) = (key, None)).
  { rewrite ParseInt4_digits; [now rewrite Hval|assumption|assumption|].
    rewrite Hval. lia. }
  exists (pad ++ FormatInt4 key)%string.
  split; [exact Hs|]. split.
  { destruct (pad ++ FormatInt4 key)%string as [|c s'] eqn:E; [congruence|].
    pose proof Hall as Hall'. cbn [all_base4_digits] in Hall'.
    apply andb_prop in Hall'. destruct Hall' as [Hc _].
    destruct (base4_digit_not_sign c Hc) as [Ep Em].
    cbn [base4_numeral]. rewrite Ep, Em. exact Hall. }
  split; [exact Hparse|].
  unfold NewPointFromQuadkeyString. rewrite Hparse. cbn [fst].
  split; [reflexivity|].
  intros HL1 Hcase. f_equal.
  rewrite len_append, Hpad.
  set (d := len (FormatInt4 key)) in *.
  specialize (H1 HL1).
  assert (Hge : L - 1 <= d).
  { destruct (Z.le_gt_cases 3 L) as [H3|H3]; [|lia].
    destruct Hcase as [Hsmall|Hbig]; [lia|]. now apply Hlong. }
  Z.div_mod_to_equations. lia.
Qed.

Lemma NewPointFromQuadkeyString_QuadkeyString_witness :
  exists s,
    QuadkeyString (project_const 8405 12182) origin 15 = Some s
    /\ ParseInt4 s = (Quadkey (project_const 8405 12182) origin 15, None)
    /\ NewPointFromQuadkeyString inverse_cell s
       = NewPointFromQuadkey inverse_cell
           (Quadkey (project_const 8405 12182) origin 15) 15.
Proof.
  destruct (NewPointFromQuadkeyString_QuadkeyString
              (project_const 8405 12182) inverse_cell origin 15 ltac:(lia))
    as (s & H1 & _ & H3 & _ & H5).
  exists s. split; [exact H1|]. split; [exact H3|].
  apply H5; [lia|]. right. vm_compute. discriminate.
Defined.

(** ** Euclidean distance *)

Example DistanceFrom_3_4 :
  DistanceFrom p_0_0 p_3_4 = f64_of_Z 5
  /\ DistanceFrom p_3_4 p_0_0 = f64_of_Z 5
  /\ SquaredDistanceFrom p_0_0 p_3_4 = f64_of_Z 25.
Proof. vm_compute. repeat split; reflexivity. Qed.

Ltac destruct_lets :=
  repeat match goal with
    | |- context [let '(_, _) := ?x in _] => destruct x
    | |- context [match ?x with (_, _) => _ end] => destruct x
    end.

(** Rounding a magnitude with either sign gives the same float up to its
    sign. *)
Lemma binary_round_aux_abs s1 s2 m e l :
  SFabs (binary_round_aux 53 1024 s1 m e l)
  = SFabs (binary_round_aux 53 1024 s2 m e l).
Proof.
  unfold binary_round_aux. destruct_lets.
  destruct (shr_m _); try reflexivity.
  destruct (Z.leb _ _); reflexivity.
Qed.

Lemma binary_normalize_opp_abs m e :
  SFabs (binary_normalize 53 1024 (- m) e false)
  = SFabs (binary_normalize 53 1024 m e false).
Proof.
  destruct m as [|q|q]; cbn [Z.opp binary_normalize]; try reflexivity;
    unfold binary_round; destruct_lets; apply binary_round_aux_abs.
Qed.

(** Swapping the operands of a subtraction changes at most the sign. *)
Lemma f64_sub_swap_abs a b : SFabs (f64_sub a b) = SFabs (f64_sub b a).
Proof.
  unfold f64_sub.
  destruct a as [sa|sa| |sa ma ea], b as [sb|sb| |sb mb eb];
    try (destruct sa; destruct sb; reflexivity);
    try (destruct sa; reflexivity); try (destruct sb; reflexivity);
    try reflexivity.
  cbn [SFsub]. rewrite (Z.min_comm eb ea).
  set (A := cond_Zopp sa _). set (B := cond_Zopp sb _).
  replace (B - A) with (- (A - B)) by lia.
  symmetry. apply binary_normalize_opp_abs.
Qed.

(** A square only depends on the magnitude. *)
Lemma f64_square_abs x y : SFabs x = SFabs y -> f64_mul x x = f64_mul y y.
Proof.
  unfold f64_mul.
  destruct x as [sx|sx| |sx mx ex], y as [sy|sy| |sy my ey];
    cbn [SFabs]; intros E; try discriminate E; try reflexivity.
  - destruct sx, sy; reflexivity.
  - destruct sx, sy; reflexivity.
  - injection E as -> ->. destruct sx, sy; reflexivity.
Qed.

(** X15. the squared distance and the distance do not depend on the order of
    the two points. *)
Theorem DistanceFrom_symmetric (p q : Point) :
  SquaredDistanceFrom p q = SquaredDistanceFrom q p
  /\ DistanceFrom p q = DistanceFrom q p.
Proof.
  unfold DistanceFrom, SquaredDistanceFrom. cbv zeta.
  rewrite (f64_square_abs _ _ (f64_sub_swap_abs (fst q) (fst p))).
  rewrite (f64_square_abs _ _ (f64_sub_swap_abs (snd q) (snd p))).
  split; reflexivity.
Qed.

Lemma binary_round_aux_unsigned m e l :
  f64_unsigned (binary_round_aux 53 1024 false m e l) = true.
Proof.
  unfold binary_round_aux. destruct_lets.
  destruct (shr_m _); try reflexivity.
  destruct (Z.leb _ _); reflexivity.
Qed.

Lemma f64_square_unsigned x : f64_unsigned (f64_mul x x) = true.
Proof.
  unfold f64_mul. destruct x as [s|s| |s m e]; cbn [SFmul];
    try (destruct s; reflexivity); try reflexivity.
  replace (xorb s s) with false by (destruct s; reflexivity).
  apply binary_round_aux_unsigned.
Qed.

Lemma f64_add_unsigned x y :
  f64_unsigned x = true -> f64_unsigned y = true ->
  f64_unsigned (f64_add x y) = true.
Proof.
  unfold f64_add.
  destruct x as [[]|[]| |[] mx ex], y as [[]|[]| |[] my ey];
    cbn [f64_unsigned]; intros Hx Hy; try discriminate; try reflexivity.
  cbn [SFadd cond_Zopp Z.add]. cbn [binary_normalize].
  unfold binary_round. destruct_lets. apply binary_round_aux_unsigned.
Qed.

Lemma f64_sqrt_unsigned x :
  f64_unsigned x = true -> f64_unsigned (f64_sqrt x) = true.
Proof.
  unfold f64_sqrt. destruct x as [[]|[]| |[] m e];
    cbn [f64_unsigned]; intros Hx; try discriminate; try reflexivity.
  cbn [SFsqrt]. destruct_lets. apply binary_round_aux_unsigned.
Qed.

Lemma f64_sub_self x :
  f64_sub x x = if f64_is_finite x then S754_zero false else S754_nan.
Proof.
  unfold f64_sub. destruct x as [[]|[]| |s m e]; try reflexivity.
  cbn [SFsub f64_is_finite]. now rewrite Z.sub_diag.
Qed.

(** X16. a distance is never negative: [DistanceFrom] and
    [SquaredDistanceFrom] return NaN or a float whose sign bit is clear,
    so zero never exceeds a distance; from a point to itself
    they return [+0] when both coordinates are finite, and NaN when one is
    an infinity or NaN. *)
Theorem DistanceFrom_unsigned (p q : Point) :
  f64_unsigned (SquaredDistanceFrom p q) = true
  /\ f64_unsigned (DistanceFrom p q) = true
  /\ f64_gt (f64_of_Z 0) (DistanceFrom p q) = false
  /\ DistanceFrom p p
     = (if f64_is_finite (fst p) && f64_is_finite (snd p)
        then S754_zero false else S754_nan)
  /\ SquaredDistanceFrom p p
     = (if f64_is_finite (fst p) && f64_is_finite (snd p)
        then S754_zero false else S754_nan).
Proof.
  assert (H2 : f64_unsigned (SquaredDistanceFrom p q) = true).
  { unfold SquaredDistanceFrom. cbv zeta.
    apply f64_add_unsigned; apply f64_square_unsigned. }
  assert (H1 : f64_unsigned (DistanceFrom p q) = true).
  { unfold DistanceFrom. cbv zeta. apply f64_sqrt_unsigned. exact H2. }
  split; [exact H2|]. split; [exact H1|]. split.
  - destruct (DistanceFrom p q) as [[]|[]| |[] m e];
      (discriminate H1 || reflexivity).
  - unfold DistanceFrom, SquaredDistanceFrom. cbv zeta.
    rewrite !f64_sub_self.
    destruct (f64_is_finite (fst p)), (f64_is_finite (snd p)); split; reflexivity.
Qed.

(** ** [Equal] *)

Lemma f64_eq_sym a b : f64_eq a b = f64_eq b a.
Proof.
  unfold f64_eq, SFeqb.
  destruct a as [?|?| |? ? ?], b as [?|?| |? ? ?];
    cbn; try reflexivity;
    repeat match goal with s : bool |- _ => destruct s end;
    cbn; try reflexivity; float_order.
Qed.

Lemma f64_eq_refl a : f64_eq a a = negb (f64_is_nan a).
Proof.
  unfold f64_eq, SFeqb. destruct a as [[]|[]| |[] m e]; cbn; try reflexivity;
    rewrite Z.compare_refl;
    change (Pos.compare_cont Eq m m) with (Pos.compare m m);
    rewrite Pos.compare_refl; reflexivity.
Qed.

Lemma f64_eq_trans a b c :
  f64_eq a b = true -> f64_eq b c = true -> f64_eq a c = true.
Proof.
  unfold f64_eq, SFeqb. float_cases a b c.
Qed.

(** X14. [Equal] is symmetric and transitive, and a point is [Equal] to
    itself exactly when none of its coordinates is NaN. *)
Theorem Equal_partial_equivalence (p q r : Point) :
  Equal p q = Equal q p
  /\ (Equal p q = true -> Equal q r = true -> Equal p r = true)
  /\ Equal p p = negb (f64_is_nan (fst p)) && negb (f64_is_nan (snd p)).
Proof.
  unfold Equal. split; [|split].
  - now rewrite (f64_eq_sym (fst p)), (f64_eq_sym (snd p)).
  - intros H1 H2. apply andb_prop in H1. apply andb_prop in H2.
    destruct H1 as [A1 A2], H2 as [B1 B2].
    now rewrite (f64_eq_trans _ _ _ A1 B1), (f64_eq_trans _ _ _ A2 B2).
  - now rewrite !f64_eq_refl.
Qed.

Lemma bisection_Equal p q n :
  Equal p q = true -> bisection p n = bisection q n.
Proof.
  unfold Equal. intros H. apply andb_prop in H. destruct H as [H0 H1].
  induction n as [|n IH]; [reflexivity|].
  cbn [bisection]. rewrite IH.
  destruct (bisection q n) as [[bits lng] lat].
  unfold bisect, Lng, Lat.
  rewrite (f64_gt_eq_compat _ _ _ H0), (f64_gt_eq_compat _ _ _ H1).
  reflexivity.
Qed.

(** X13. points that are [Equal] have the same hashes: the same integer hash
    for every bit count and the same geohash, or the same panic, for every
    precision. *)
Theorem Equal_same_hash (p q : Point) :
  Equal p q = true ->
  (forall n, GeoHashInt64 p n = GeoHashInt64 q n)
  /\ (forall chars, GeoHash p chars = GeoHash q chars).
Proof.
  intros H.
  assert (E : forall n, GeoHashInt64 p n = GeoHashInt64 q n).
  { intros n. rewrite !GeoHashInt64_s64_bits_value. unfold bisection_bits.
    now rewrite (bisection_Equal p q _ H). }
  split; [exact E|]. intros chars. unfold GeoHash. now rewrite E.
Qed.

Lemma Equal_same_hash_witness :
  GeoHashInt64 (NewPoint (S754_zero true) (S754_zero false)) 30
  = GeoHashInt64 (NewPoint (S754_zero false) (S754_zero true)) 30
  /\ GeoHash (NewPoint (S754_zero true) (S754_zero false)) [7]
     = GeoHash (NewPoint (S754_zero false) (S754_zero true)) [7].
Proof.
  split.
  - apply (proj1 (Equal_same_hash (NewPoint (S754_zero true) (S754_zero false))
                    (NewPoint (S754_zero false) (S754_zero true)) eq_refl)).
  - apply (proj2 (Equal_same_hash (NewPoint (S754_zero true) (S754_zero false))
                    (NewPoint (S754_zero false) (S754_zero true)) eq_refl)).
Defined.

(** ** [Add] and [Subtract] *)

(** X17. subtracting a point with finite coordinates from itself gives the
    vector of two [+0], and adding that vector back gives a point [Equal]
    to the first; with a coordinate that is an infinity or NaN the
    difference has a NaN and the sum is not [Equal] to the point. *)
Theorem Add_Subtract_self (p : Point) :
  Subtract p p
  = ((if f64_is_finite (fst p) then S754_zero false else S754_nan),
     (if f64_is_finite (snd p) then S754_zero false else S754_nan))
  /\ Equal (Add p (Subtract p p)) p
     = f64_is_finite (fst p) && f64_is_finite (snd p).
Proof.
  unfold Subtract, Add, Equal. cbn [fst snd]. rewrite !f64_sub_self.
  split; [reflexivity|].
  assert (H : forall x,
            f64_eq (f64_add x (if f64_is_finite x then S754_zero false else S754_nan)) x
            = f64_is_finite x).
  { intros x. destruct x as [[]|[]| |s m e]; try reflexivity.
    cbn [f64_is_finite].
    change (f64_add (S754_finite s m e) (S754_zero false)) with (S754_finite s m e).
    now rewrite f64_eq_refl. }
  now rewrite !H.
Qed.

Lemma Equal_partial_equivalence_witness :
  Equal (NewPoint (S754_zero false) (S754_zero false))
        (NewPoint (S754_zero true) (S754_zero true)) = true
  /\ Equal nan_point nan_point = false.
Proof.
  split.
  - apply (proj1 (proj2 (Equal_partial_equivalence
                           (NewPoint (S754_zero false) (S754_zero false))
                           (NewPoint (S754_zero true) (S754_zero false))
                           (NewPoint (S754_zero true) (S754_zero true)))));
      reflexivity.
  - apply (proj2 (proj2 (Equal_partial_equivalence nan_point nan_point nan_point))).
Defined.

(** ** The hash follows the order of both coordinates *)

(** Two runs of the loop for points ordered in both coordinates: the bits of
    the first denote at most the number of the second, and as long as the
    bits agree so do all four bounds. *)
Lemma GeoHashInt64_pair_le p1 p2 :
  f64_le (fst p1) (fst p2) = true ->
  f64_le (snd p1) (snd p2) = true ->
  forall m,
    let st1 := for_up (GeoHashInt64_step p1) 0 m geoHashInit in
    let st2 := for_up (GeoHashInt64_step p2) 0 m geoHashInit in
    exists R1 R2,
      hash st1 = s64 R1 /\ hash st2 = s64 R2
      /\ 0 <= R1 /\ R1 <= R2 /\ R2 < 2 ^ Z.of_nat m
      /\ (R1 = R2 ->
          lngMin st1 = lngMin st2 /\ lngMax st1 = lngMax st2
          /\ latMin st1 = latMin st2 /\ latMax st1 = latMax st2).
Proof.
  intros Hlng Hlat. induction m as [|m IH]; cbv zeta in *.
  - exists 0, 0. cbn [for_up]. repeat split; try reflexivity; lia.
  - destruct IH as (R1 & R2 & H1 & H2 & HR0 & HR12 & HR2 & Htied).
    rewrite !for_up_snoc.
    set (st1 := for_up (GeoHashInt64_step p1) 0 m geoHashInit) in *.
    set (st2 := for_up (GeoHashInt64_step p2) 0 m geoHashInit) in *.
    set (i := 0 + Z.of_nat m).
    rewrite Nat2Z.inj_succ, Z.pow_succ_r by lia.
    destruct (Z.rem i 2 =? 0) eqn:Hi.
    + destruct (GeoHashInt64_step_lng p1 i st1 Hi) as (A1 & A2 & A3 & A4 & A5).
      destruct (GeoHashInt64_step_lng p2 i st2 Hi) as (B1 & B2 & B3 & B4 & B5).
      set (b1 := f64_gt (fst p1) (f64_mid (lngMin st1) (lngMax st1))) in *.
      set (b2 := f64_gt (fst p2) (f64_mid (lngMin st2) (lngMax st2))) in *.
      assert (Hb : R1 = R2 -> b1 = true -> b2 = true).
      { intros E Hb1. destruct (Htied E) as (E1 & E2 & _). unfold b2.
        rewrite <- E1, <- E2. eapply f64_gt_le_trans; eassumption. }
      clearbody b1 b2.
      exists (2 * R1 + Z.b2z b1), (2 * R2 + Z.b2z b2).
      rewrite A1, B1, H1, H2, !emit_s64, A2, A3, B2, B3, A4, A5, B4, B5.
      split; [reflexivity|]. split; [reflexivity|].
      split; [destruct b1; cbn [Z.b2z]; lia|].
      split.
      { destruct (Z.eq_dec R1 R2) as [E|NE].
        - specialize (Hb E). destruct b1, b2; cbn [Z.b2z]; try lia;
            specialize (Hb eq_refl); discriminate.
        - destruct b1, b2; cbn [Z.b2z]; lia. }
      split; [destruct b2; cbn [Z.b2z]; lia|].
      intros E.
      assert (ER : R1 = R2) by (destruct b1, b2; cbn [Z.b2z] in E; lia).
      assert (Eb : b1 = b2) by (destruct b1, b2; cbn [Z.b2z] in E; try reflexivity; lia).
      destruct (Htied ER) as (E1 & E2 & E3 & E4).
      rewrite <- Eb, E1, E2, E3, E4. repeat split; reflexivity.
    + destruct (GeoHashInt64_step_lat p1 i st1 Hi) as (A1 & A2 & A3 & A4 & A5).
      destruct (GeoHashInt64_step_lat p2 i st2 Hi) as (B1 & B2 & B3 & B4 & B5).
      set (b1 := f64_gt (snd p1) (f64_mid (latMin st1) (latMax st1))) in *.
      set (b2 := f64_gt (snd p2) (f64_mid (latMin st2) (latMax st2))) in *.
      assert (Hb : R1 = R2 -> b1 = true -> b2 = true).
      { intros E Hb1. destruct (Htied E) as (_ & _ & E3 & E4). unfold b2.
        rewrite <- E3, <- E4. eapply f64_gt_le_trans; eassumption. }
      clearbody b1 b2.
      exists (2 * R1 + Z.b2z b1), (2 * R2 + Z.b2z b2).
      rewrite A1, B1, H1, H2, !emit_s64, A2, A3, B2, B3, A4, A5, B4, B5.
      split; [reflexivity|]. split; [reflexivity|].
      split; [destruct b1; cbn [Z.b2z]; lia|].
      split.
      { destruct (Z.eq_dec R1 R2) as [E|NE].
        - specialize (Hb E). destruct b1, b2; cbn [Z.b2z]; try lia;
            specialize (Hb eq_refl); discriminate.
        - destruct b1, b2; cbn [Z.b2z]; lia. }
      split; [destruct b2; cbn [Z.b2z]; lia|].
      intros E.
      assert (ER : R1 = R2) by (destruct b1, b2; cbn [Z.b2z] in E; lia).
      assert (Eb : b1 = b2) by (destruct b1, b2; cbn [Z.b2z] in E; try reflexivity; lia).
      destruct (Htied ER) as (E1 & E2 & E3 & E4).
      rewrite <- Eb, E1, E2, E3, E4. repeat split; reflexivity.
Qed.

(** X7. up to 63 bits the hash is monotone in both coordinates at once: a
    point that is at most another in longitude and in latitude has at most
    its hash. *)
Theorem GeoHashInt64_monotone_both (p1 p2 : Point) (n : Z) :
  n <= 63 ->
  f64_le (Lng p1) (Lng p2) = true ->
  f64_le (Lat p1) (Lat p2) = true ->
  GeoHashInt64 p1 n <= GeoHashInt64 p2 n.
Proof.
  intros Hn Hlng Hlat. unfold GeoHashInt64, GeoHashInt64_loop.
  destruct (GeoHashInt64_pair_le p1 p2 Hlng Hlat (Z.to_nat n))
    as (R1 & R2 & H1 & H2 & HR0 & HR12 & HR2 & _).
  rewrite H1, H2.
  assert (2 ^ Z.of_nat (Z.to_nat n) <= 2 ^ 63) by (apply Z.pow_le_mono_r; lia).
  rewrite !s64_small by lia. exact HR12.
Qed.

Lemma GeoHashInt64_monotone_both_witness :
  (f64_le (Lng origin) (Lng aalborg) = true
   /\ f64_le (Lat origin) (Lat aalborg) = true)
  /\ GeoHashInt64 origin 63 <= GeoHashInt64 aalborg 63.
Proof.
  split; [repeat split; reflexivity|].
  apply (GeoHashInt64_monotone_both origin aalborg 63); [lia|reflexivity|reflexivity].
Defined.

(** At 64 bits the first bit is the sign of the result, and the order is
    lost across the prime meridian. *)
Example GeoHashInt64_monotone_both_64 :
  f64_le (Lng origin) (Lng east10) = true
  /\ f64_le (Lat origin) (Lat east10) = true
  /\ GeoHashInt64 east10 64 < GeoHashInt64 origin 64.
Proof. vm_compute. repeat split; reflexivity. Qed.
